(** * kademlia.network: the Server of the eqitii DHT

    A shallow embedding of [kademlia/network.py].  The server's coroutines
    become computations in a state-and-exception monad over a [World]: the
    server object's own fields, the snapshot files, and an abstract
    environment standing for everything reached through [self.protocol]
    and the validator repository (routing table, peers, ledger, clock).
    Modules the file imports but which are not part of it (domain,
    storage, crawling, protocol, repository, utils) enter as interfaces. *)

From Stdlib Require Import ZArith Lia.
From Stdlib.Strings Require Import Byte Ascii String.
From stdpp Require Import base option list strings gmap.
From stdpp Require Import pretty.

(** ** Python values used by the server *)

Definition bytes := list byte.

#[global] Instance byte_eq_decision : EqDecision byte := Byte.byte_eq_dec.

(** [bytes.hex()]: two lowercase hexadecimal digits per byte. *)
Definition hex_digit (n : N) : ascii :=
  match n with
  | 0 => "0" | 1 => "1" | 2 => "2" | 3 => "3" | 4 => "4" | 5 => "5"
  | 6 => "6" | 7 => "7" | 8 => "8" | 9 => "9" | 10 => "a" | 11 => "b"
  | 12 => "c" | 13 => "d" | 14 => "e" | _ => "f"
  end%N%char.

Definition hex_byte (b : byte) : string :=
  let n := Byte.to_N b in
  String (hex_digit (n / 16)) (String (hex_digit (n mod 16)) EmptyString).

Definition hex (b : bytes) : string :=
  foldr (λ x acc, hex_byte x +:+ acc) EmptyString b.

(** What [digest] is applied to: a [str] (the plain key of [get]/[set]),
    [bytes] (the digests that the republish loop hands to
    [_call_remote_persist]) or an [int] (the random draw of [__init__]). *)
Inductive pykey :=
  | KStr (s : string)
  | KBytes (b : bytes)
  | KInt (z : Z).

(** Truthiness of a Python [str] ([if local_value:], [if value_response.data:]). *)
Definition str_truthy (s : string) : bool :=
  match s with EmptyString => false | String _ _ => true end.

Definition opt_truthy (o : option string) : bool :=
  match o with Some s => str_truthy s | None => false end.

(** Exceptions that can leave a coroutine of the server. *)
Inductive exn :=
  | UnauthorizedOperationException
  | JSONDecodeError
  | FileNotFoundError
  | DomainError (msg : string).

Inductive outcome (A : Type) :=
  | Ok (a : A)
  | Raise (e : exn).
Arguments Ok {A} a.
Arguments Raise {A} e.

(** ** kademlia.node and kademlia.domain: the data the server handles *)

Record Node := mkNode {
  node_id : bytes;
  node_ip : option string;
  node_port : option Z
}.

Record Authorization := mkAuthorization {
  sign : string;
  pub_key : string
}.

Record Value := mkValue {
  content : string;
  persist_mode : string;
  authorization : Authorization
}.

(** What [ValueFactory.create_from_string] yields: a single [Value], or a
    [ControlledValue] holding the values of several writers. *)
Inductive StoredValue :=
  | Single (v : Value)
  | Controlled (vs : list Value).

(** [NodeMessage.of_params(dkey, data)]; its JSON form carries the same two
    fields, so a response of a crawl is represented by the record too. *)
Record NodeMessage := of_params {
  nm_key : bytes;
  nm_data : option string
}.

Definition to_json (m : NodeMessage) : NodeMessage := m.

(** Modelled from the spec: [ControlledValue.add_value] of kademlia.domain,
    which is not in the source tree; it appends the new value and discards
    none of the values already held. *)
Definition add_value (vs : list Value) (new_value : Value) : list Value :=
  vs ++ [new_value].

(** ** select_most_common_response *)

Module MostCommon.

(** One more occurrence of [p] in the groups seen so far; a payload not yet
    seen opens a new group behind the existing ones. *)
Fixpoint bump (p : string) (groups : list (string * nat)) : list (string * nat) :=
  match groups with
  | [] => [(p, 1)]
  | (q, n) :: rest =>
      if decide (p = q) then (q, S n) :: rest else (q, n) :: bump p rest
  end.

Definition tally (payloads : list string) : list (string * nat) :=
  foldl (λ groups p, bump p groups) [] payloads.

(** The first group whose count no other group exceeds. *)
Fixpoint first_max (groups : list (string * nat)) : option (string * nat) :=
  match groups with
  | [] => None
  | g :: rest =>
      match first_max rest with
      | Some h => if (g.2 <? h.2)%nat then Some h else Some g
      | None => Some g
      end
  end.

(** The payloads of the responses that carry data, in response order. *)
Definition payloads (responses : list NodeMessage) : list string :=
  omap nm_data responses.

Fixpoint occurrences (p : string) (l : list string) : nat :=
  match l with
  | [] => 0
  | q :: rest => (if decide (p = q) then 1 else 0) + occurrences p rest
  end.

(** The count of the group of [q], if it has one. *)
Fixpoint lookup_group (q : string) (g : list (string * nat)) : option nat :=
  match g with
  | [] => None
  | (k, n) :: rest => if decide (q = k) then Some n else lookup_group q rest
  end.

(** [p] is seen in [l] before [q] is: [q] does not occur ahead of the first
    occurrence of [p]. *)
Definition seen_before (p q : string) (l : list string) : Prop :=
  ∃ l1 l2, l = l1 ++ p :: l2 ∧ q ∉ l1.

End MostCommon.

(** Modelled from the spec: [select_most_common_response] of kademlia.domain,
    which is not in the source tree.  The responses carrying data are grouped
    by payload equality, groups are kept in first-seen order, and the payload
    of the first group with the highest count is returned; [None] without any
    data-bearing response. *)
Definition select_most_common_response (dkey : bytes) (responses : list NodeMessage)
  : option string :=
  fst <$> MostCommon.first_max (MostCommon.tally (MostCommon.payloads responses)).

(** ** kademlia.storage *)

(** Modelled from the spec: [ForgetfulStorage] of kademlia.storage, which is
    not in the source tree: an expiring map from key digests to serialized
    values with last-write timestamps, kept in write order.  An entry is
    forgotten once it is older than [ttl]; [set] overwrites and stamps the
    time; [iteritemsOlderThan age] yields the live entries written at least
    [age] seconds ago. *)
Module Storage.

Record t := mk {
  ttl : Z;
  items : list (bytes * (Z * string))
}.

Definition empty : t := mk 604800 [].

Definition live (st : t) (now birthday : Z) : bool :=
  (now - birthday <=? ttl st)%Z.

Fixpoint find (k : bytes) (l : list (bytes * (Z * string))) : option (Z * string) :=
  match l with
  | [] => None
  | (k', e) :: rest => if decide (k = k') then Some e else find k rest
  end.

Definition get (now : Z) (st : t) (k : bytes) : option string :=
  match find k (items st) with
  | Some (birthday, v) => if live st now birthday then Some v else None
  | None => None
  end.

Definition set (now : Z) (st : t) (k : bytes) (v : string) : t :=
  mk (ttl st) (filter (λ e, e.1 ≠ k) (items st) ++ [(k, (now, v))]).

Definition iteritemsOlderThan (now : Z) (st : t) (age : Z) : list (bytes * string) :=
  (λ e, (e.1, e.2.2)) <$>
    filter (λ e, live st now e.2.1 = true ∧ (age <= now - e.2.1)%Z) (items st).

End Storage.

(** ** The world a server runs in *)

Record Server := mkServer {
  ksize : Z;
  alpha : Z;
  storage : Storage.t;
  node : Node
}.

(** The dictionary that [saveState] pickles. *)
Record Snapshot := mkSnapshot {
  snap_ksize : Z;
  snap_alpha : Z;
  snap_id : bytes;
  snap_neighbors : list (option string * option Z)
}.

(** A record of the permission ledger; [get_by_id] answers with one, or with
    [None] when the ledger has none under the hash.  A record is a non-empty
    object, so [not record] holds of [None] only. *)
Record PermissionRecord := mkPermission { permission_body : string }.

(** What the server does to the outside, in program order, and the calls of
    [_call_remote_persist]; no definition reads the trace. *)
Inductive event :=
  | EvValueCrawl (target : Node) (nearest : list Node) (seed : list NodeMessage)
  | EvNodeCrawl (target : Node) (nearest : list Node)
  | EvCallStore (peer : Node) (dkey : bytes) (value : string) (accepted : bool)
  | EvPing (addr : option string * option Z)
  | EvGetById (value_hash : string) (answer : option PermissionRecord)
  | EvRemotePersist (key : pykey) (value : string).

#[warnings="-register-all"]
Inductive json :=
  | JNull
  | JBool (b : bool)
  | JNumber (literal : string)
  | JString (s : string)
  | JArray (elements : list json)
  | JObject (members : list (string * json)).

(** kademlia.utils. *)
Class Utils := {
  digest : pykey → bytes;
  digest256 : string → bytes
}.

(** kademlia.domain.domain, as far as the server calls it; a function that
    can raise returns an [outcome]. *)
Class Domain := {
  is_valid : Value → bool;
  value_str : StoredValue → string;
  create_from_string : bytes → string → outcome StoredValue;
  create_from_value : Value → StoredValue;
  validate_secure_value : bytes → Value → Value → outcome ()
}.

(** The [json] module: [json.loads] raises on a string that is no JSON
    document ([None] here). *)
Class Json := {
  json_loads : string → option json;
  json_dumps : json → string
}.

(** Everything behind [self.protocol], [validatorRepository], [random], the
    clock and the file system.  A call that reaches the outside steps the
    environment, so two successive calls need not see the same peers or the
    same ledger.  [open_wb e fname] is the outcome of [open(fname, 'wb')]: it
    raises the [OSError] of a path that cannot be opened for writing. *)
Class Environment (Env : Type) := {
  monotonic : Env → Z;
  getrandbits : Env → Z → Z * Env;
  findNeighbors : Env → Node → option Z → list Node;
  getRefreshIDs : Env → list bytes;
  find_value_gather : Env → Node → list Node → Z → Z → list NodeMessage * Env;
  find_nodes : Env → Node → list Node → Z → Z → list Node * Env;
  callStore : Env → Node → bytes → string → bool * Env;
  ping : Env → option string * option Z → bytes → (bool * bytes) * Env;
  get_by_id : Env → string → option PermissionRecord * Env;
  open_wb : Env → string → outcome ()
}.

Record World (Env : Type) := mkWorld {
  self : Server;
  env : Env;
  files : gmap string Snapshot;
  trace : list event
}.
Arguments mkWorld {Env}.
Arguments self {Env}.
Arguments env {Env}.
Arguments files {Env}.
Arguments trace {Env}.

(** ** Coroutines as state-and-exception computations *)

Definition M (Env A : Type) : Type := World Env → outcome A * World Env.

Definition ret {Env A} (a : A) : M Env A := λ w, (Ok a, w).

Definition raise {Env A} (e : exn) : M Env A := λ w, (Raise e, w).

Definition bind {Env A B} (m : M Env A) (k : A → M Env B) : M Env B :=
  λ w, match m w with
       | (Ok a, w') => k a w'
       | (Raise e, w') => (Raise e, w')
       end.

Notation "'let*' x ':=' m 'in' k" := (bind m (λ x, k))
  (at level 10, x pattern, m at level 100, k at level 200).

Definition lift {Env A} (o : outcome A) : M Env A := λ w, (o, w).

Definition log {Env} (ev : event) : M Env () :=
  λ w, (Ok (), mkWorld (self w) (env w) (files w) (trace w ++ [ev])).

Definition env_read {Env A} (f : Env → A) : M Env A := λ w, (Ok (f (env w)), w).

Definition env_step {Env A} (f : Env → A * Env) : M Env A :=
  λ w, let '(a, e) := f (env w) in (Ok a, mkWorld (self w) e (files w) (trace w)).

Definition self_read {Env A} (f : Server → A) : M Env A := λ w, (Ok (f (self w)), w).

(** A call into the environment that can raise. *)
Definition env_try {Env A} (f : Env → outcome A) : M Env A := λ w, (f (env w), w).

Definition set_storage {Env} (st : Storage.t) : M Env () :=
  λ w, (Ok (), mkWorld (mkServer (ksize (self w)) (alpha (self w)) st (node (self w)))
                 (env w) (files w) (trace w)).

(** [await asyncio.gather] over the coroutines [cos]: the results in the order
    of the arguments.  The coroutines run one after the other here; how their
    calls interleave on the wire is left to the environment's steps. *)
Fixpoint gather {Env A} (cos : list (M Env A)) : M Env (list A) :=
  match cos with
  | [] => ret []
  | co :: rest =>
      let* a := co in
      let* others := gather rest in
      ret (a :: others)
  end.

(** [for x in xs: body(x)]. *)
Fixpoint for_each {Env A} (xs : list A) (body : A → M Env ()) : M Env () :=
  match xs with
  | [] => ret ()
  | x :: rest => let* _ := body x in for_each rest body
  end.

(** Python's [any] over a list of booleans. *)
Definition any (bs : list bool) : bool := existsb id bs.

(** ** kademlia.crawling *)

Section Server.

Context {Env : Type} `{!Environment Env} `{!Utils} `{!Domain} `{!Json}.

#[local] Abbreviation M := (M Env).

(** [NodeSpiderCrawl(self.protocol, node, nearest, ksize, alpha).find()]. *)
Definition NodeSpiderCrawl_find (target : Node) (nearest : list Node) : M (list Node) :=
  let* k := self_read ksize in
  let* a := self_read alpha in
  let* _ := log (EvNodeCrawl target nearest) in
  env_step (λ e, find_nodes e target nearest k a).

(** Modelled from the spec: [ValueSpiderCrawl.find] of kademlia.crawling, which
    is not in the source tree.  The responses it returns are the pre-seeded
    ones, placed first, followed by those gathered from the peers. *)
Definition ValueSpiderCrawl_find (target : Node) (nearest : list Node)
    (seed : list NodeMessage) : M (list NodeMessage) :=
  let* k := self_read ksize in
  let* a := self_read alpha in
  let* _ := log (EvValueCrawl target nearest seed) in
  let* gathered := env_step (λ e, find_value_gather e target nearest k a) in
  ret (seed ++ gathered).

(** ** kademlia.network.Server *)

(** [Server.__init__(ksize, alpha, node_id)] with the default storage; the
    random identifier is drawn only when [node_id] is empty or missing. *)
Definition Server_init (k a : Z) (id : option bytes) : M Server :=
  match id with
  | Some (b :: rest) => ret (mkServer k a Storage.empty (mkNode (b :: rest) None None))
  | _ =>
      let* r := env_step (λ e, getrandbits e 255) in
      ret (mkServer k a Storage.empty (mkNode (digest (KInt r)) None None))
  end.

Definition storage_get (dkey : bytes) : M (option string) :=
  let* now := env_read monotonic in
  let* st := self_read storage in
  ret (Storage.get now st dkey).

Definition storage_setitem (dkey : bytes) (v : string) : M () :=
  let* now := env_read monotonic in
  let* st := self_read storage in
  set_storage (Storage.set now st dkey v).

Definition storage_iteritemsOlderThan (age : Z) : M (list (bytes * string)) :=
  let* now := env_read monotonic in
  let* st := self_read storage in
  ret (Storage.iteritemsOlderThan now st age).

Definition protocol_callStore (n : Node) (dkey : bytes) (value : string) : M bool :=
  let* ok := env_step (λ e, callStore e n dkey value) in
  let* _ := log (EvCallStore n dkey value ok) in
  ret ok.

Definition protocol_ping (addr : option string * option Z) (id : bytes)
  : M (bool * bytes) :=
  let* _ := log (EvPing addr) in
  env_step (λ e, ping e addr id).

Definition _call_remote_persist (key : pykey) (value : string) : M bool :=
  let* _ := log (EvRemotePersist key value) in
  let dkey := digest key in
  let target := mkNode dkey None None in
  let* nearest := env_read (λ e, findNeighbors e target None) in
  if (length nearest =? 0)%nat then ret false
  else
    let* nodes := NodeSpiderCrawl_find target nearest in
    let ds := (λ n, protocol_callStore n dkey value) <$> nodes in
    let* results := gather ds in
    ret (any results).

(** The first half of [_refresh_table]: a node crawl toward every identifier
    that [getRefreshIDs] names, the nearest peers being looked up for all of
    them before the crawls are gathered. *)
Definition refresh_table_crawl : M () :=
  let* ids := env_read getRefreshIDs in
  let* a := self_read alpha in
  let* targets := env_read (λ e,
      (λ id, let target := mkNode id None None in
             (target, findNeighbors e target (Some a))) <$> ids) in
  let ds := (λ tn : Node * list Node, NodeSpiderCrawl_find tn.1 tn.2) <$> targets in
  let* _ := gather ds in
  ret ().

(** The [if isinstance(parsed_val, list)] of the republish loop. *)
Definition values_to_republish (value : string) (parsed_val : json) : list string :=
  match parsed_val with
  | JArray vals => json_dumps <$> vals
  | _ => [value]
  end.

(** The second half of [_refresh_table]: the republish loop. *)
Definition refresh_table_republish : M () :=
  let* items := storage_iteritemsOlderThan 3600 in
  for_each items (λ '(dkey, value),
    let* parsed_val := lift (match json_loads value with
                             | Some j => Ok j
                             | None => Raise JSONDecodeError
                             end) in
    for_each (values_to_republish value parsed_val) (λ val,
      let* _ := _call_remote_persist (KBytes dkey) val in ret ())).

Definition _refresh_table : M () :=
  let* _ := refresh_table_crawl in
  refresh_table_republish.

Definition bootstrappableNeighbors : M (list (option string * option Z)) :=
  let* me := self_read node in
  let* neighbors := env_read (λ e, findNeighbors e me None) in
  ret ((λ n, (node_ip n, node_port n)) <$> neighbors).

Definition bootstrap_node (addr : option string * option Z) : M (option Node) :=
  let* me := self_read node in
  let* result := protocol_ping addr (node_id me) in
  ret (if result.1 then Some (mkNode result.2 addr.1 addr.2) else None).

Definition bootstrap (addrs : list (option string * option Z)) : M (list Node) :=
  let cos := bootstrap_node <$> addrs in
  let* gathered := gather cos in
  let nodes := omap id gathered in
  let* me := self_read node in
  NodeSpiderCrawl_find me nodes.

Definition get (key : pykey) : M NodeMessage :=
  let dkey := digest key in
  let target := mkNode dkey None None in
  let* nearest := env_read (λ e, findNeighbors e target None) in
  if (length nearest =? 0)%nat then ret (of_params dkey None)
  else
    let* local_value := storage_get dkey in
    let* responses :=
      match local_value with
      | Some v =>
          if str_truthy v
          then ValueSpiderCrawl_find target nearest [to_json (of_params dkey (Some v))]
          else ValueSpiderCrawl_find target nearest []
      | None => ValueSpiderCrawl_find target nearest []
      end in
    let most_common_response := select_most_common_response dkey responses in
    ret (of_params dkey most_common_response).

Definition _get_dtl_record (dkey : bytes) (new_value : Value)
  : M (option PermissionRecord) :=
  let val_sign := sign (authorization new_value) in
  let value__hash := hex (digest256 (hex dkey +:+ val_sign)) in
  let* answer := env_step (λ e, get_by_id e value__hash) in
  let* _ := log (EvGetById value__hash answer) in
  ret answer.

(** The value [_persist_locally] is about to store (its branch on
    [value_response.data]), computed from the data that [get] returned. *)
Definition merge_result (dkey : bytes) (new_value : Value) (data : option string)
  : outcome StoredValue :=
  match data with
  | Some d =>
      if str_truthy d then
        match create_from_string dkey d with
        | Ok (Controlled stored_value) => Ok (Controlled (add_value stored_value new_value))
        | Ok (Single stored_value) =>
            match validate_secure_value dkey new_value stored_value with
            | Ok _ => Ok (Single new_value)
            | Raise e => Raise e
            end
        | Raise e => Raise e
        end
      else Ok (create_from_value new_value)
  | None => Ok (create_from_value new_value)
  end.

Definition _persist_locally (key : pykey) (new_value : Value) : M () :=
  let dkey := digest key in
  let* value_response := get key in
  let* record := _get_dtl_record dkey new_value in
  match record with
  | None => raise UnauthorizedOperationException
  | Some _ =>
      let* result := lift (merge_result dkey new_value (nm_data value_response)) in
      let* record' := _get_dtl_record dkey new_value in
      match record' with
      | None => raise UnauthorizedOperationException
      | Some _ => storage_setitem dkey (value_str result)
      end
  end.

Definition set (key : pykey) (new_value : Value) : M bool :=
  if negb (is_valid new_value) then raise UnauthorizedOperationException
  else
    let* _ := _persist_locally key new_value in
    _call_remote_persist key (value_str (Single new_value)).

(** [saveState(fname)]: nothing is opened without a known neighbour; otherwise
    [open(fname, 'wb')] comes first, and the snapshot replaces the content of
    the file once it is open. *)
Definition saveState (fname : string) : M () :=
  let* k := self_read ksize in
  let* a := self_read alpha in
  let* me := self_read node in
  let* neighbors := bootstrappableNeighbors in
  let data := mkSnapshot k a (node_id me) neighbors in
  if (length (snap_neighbors data) =? 0)%nat then ret ()
  else
    let* f := env_try (λ e, open_wb e fname) in
    λ w, (Ok (), mkWorld (self w) (env w) (<[fname := data]> (files w)) (trace w)).

(** [s.bootstrap(data['neighbors'])] is the call of a coroutine function: it
    builds the coroutine object [co] and runs none of its body; [loadState]
    neither awaits nor schedules [co]. *)
Definition loadState (fname : string) : M Server :=
  let* data := (λ w, (match files w !! fname with
                     | Some d => Ok d
                     | None => Raise FileNotFoundError
                     end, w)) in
  let* s := Server_init (snap_ksize data) (snap_alpha data) (Some (snap_id data)) in
  let co : option (M (list Node)) :=
    if (0 <? length (snap_neighbors data))%nat
    then Some (bootstrap (snap_neighbors data)) else None in
  ret s.

End Server.

(** ** Observations on a run *)

(** The events a run from [w] to [w'] appended to the trace. *)
Definition new_events {Env} (w w' : World Env) : list event :=
  drop (length (trace w)) (trace w').

(** A run that leaves the server object and the files alone and only adds to
    the trace. *)
Definition outside_only {Env} (w w' : World Env) : Prop :=
  self w' = self w ∧ files w' = files w ∧ ∃ evs, trace w' = trace w ++ evs.

(** The calls of [_call_remote_persist] among some events, in order. *)
Definition republish_calls (evs : list event) : list (pykey * string) :=
  omap (λ ev, match ev with EvRemotePersist k v => Some (k, v) | _ => None end) evs.

(** The responses [get] pre-seeds its value crawl with: the local copy, when
    the store has one and it is not the empty string. *)
Definition local_seed (dkey : bytes) (local_value : option string) : list NodeMessage :=
  match local_value with
  | Some v => if str_truthy v then [to_json (of_params dkey (Some v))] else []
  | None => []
  end.

(** The answers of [nodes] to [callStore(n, dkey, value)], asked one after the
    other in the order of the list, and the environment after the last one. *)
Fixpoint store_all {Env} `{!Environment Env} (e : Env) (nodes : list Node)
    (dkey : bytes) (value : string) : list bool * Env :=
  match nodes with
  | [] => ([], e)
  | n :: rest =>
      let '(ok, e1) := callStore e n dkey value in
      let '(oks, e2) := store_all e1 rest dkey value in
      (ok :: oks, e2)
  end.

(** ** A small concrete world

    Stand-ins for the interfaces, used to run the server on explicit inputs:
    a routing table with a fixed list of peers that all accept or all refuse
    a store, a ledger that answers successive queries from a list, a file
    system where every path can be opened for writing but the empty one, and
    toy versions of the hashes and of the value serialization. *)
Module Sample.

Record net := mkEnv {
  peers : list Node;
  accepting : bool;
  ledger : list (option PermissionRecord);
  now : Z;
  gathered : list NodeMessage;
  stale : list bytes
}.

Definition next_answer (e : net) : option PermissionRecord * net :=
  match ledger e with
  | a :: rest => (a, mkEnv (peers e) (accepting e) rest (now e) (gathered e) (stale e))
  | [] => (None, e)
  end.

#[local] Instance environment : Environment net := {|
  monotonic := now;
  getrandbits e _ := (42%Z, e);
  findNeighbors e _ _ := peers e;
  getRefreshIDs := stale;
  find_value_gather e _ _ _ _ := (gathered e, e);
  find_nodes e _ nearest _ _ := (nearest, e);
  callStore e _ _ _ := (accepting e, e);
  ping e _ id := ((true, id), e);
  get_by_id e _ := next_answer e;
  open_wb _ fname := if decide (fname = "") then Raise FileNotFoundError else Ok ()
|}.

(** Not SHA-1: the key's characters as bytes, a digest prefixed by a zero. *)
#[local] Instance utils : Utils := {|
  digest k :=
    match k with
    | KStr s => list_byte_of_string s
    | KBytes b => x00 :: b
    | KInt _ => [x01]
    end;
  digest256 s := list_byte_of_string s
|}.

Definition writer (name : string) : Authorization := mkAuthorization ("sig-" +:+ name) name.

Definition alice : Value := mkValue "alice" "overwrite" (writer "A").
Definition v1 : Value := mkValue "v1" "append" (writer "A").
Definition v2 : Value := mkValue "v2" "append" (writer "B").

(** A value is printed as its content, a controlled value as its members
    between brackets; only the strings used below are read back. *)
Definition print (sv : StoredValue) : string :=
  match sv with
  | Single v => content v
  | Controlled vs => "[" +:+ String.concat "," (content <$> vs) +:+ "]"
  end.

Definition parse (dkey : bytes) (s : string) : outcome StoredValue :=
  if decide (s = "[v1]") then Ok (Controlled [v1])
  else if decide (s = "alice") then Ok (Single alice)
  else Raise (DomainError "malformed value").

#[local] Instance domain : Domain := {|
  is_valid v := negb (String.eqb (sign (authorization v)) "");
  value_str := print;
  create_from_string := parse;
  create_from_value v := Single v;
  validate_secure_value _ new_value stored_value :=
    if decide (pub_key (authorization new_value) = pub_key (authorization stored_value))
    then Ok () else Raise UnauthorizedOperationException
|}.

(** [json.loads] on the documents used below; any other string is taken not
    to be JSON, as none of the others used here is. *)
#[local] Instance json_module : Json := {|
  json_loads s :=
    if decide (s = "[1, 2]") then Some (JArray [JNumber "1"; JNumber "2"])
    else if decide (s = "{}") then Some (JObject [])
    else None;
  json_dumps j :=
    match j with
    | JNumber l => l
    | JString s => s
    | _ => "null"
    end
|}.

Definition peer (n : byte) : Node := mkNode [n] (Some "10.0.0.1") (Some 8468%Z).

Definition granted : option PermissionRecord := Some (mkPermission "granted").

Definition server (items : list (bytes * (Z * string))) : Server :=
  mkServer 20 3 (Storage.mk 604800 items) (mkNode [x2a] None None).

Definition world (items : list (bytes * (Z * string))) (e : net) : World net :=
  mkWorld (server items) e ∅ [].

Definition key : pykey := KStr "user:42".
Definition dkey : bytes := Eval vm_compute in digest key.

End Sample.

(** Worlds for the runs at the end of the file. *)
Module Runs.
Import Sample.

#[local] Existing Instances environment utils domain json_module.

(** One peer that refuses every store; the ledger grants the first query and
    has nothing for the second. *)
Definition revoked_mid_write : World net :=
  world [] (mkEnv [peer x01] false [granted; None] 100 [] []).

(** One peer; the ledger grants both queries. *)
Definition authorized (accepts : bool) (items : list (bytes * (Z * string))) : World net :=
  world items (mkEnv [peer x01] accepts [granted; granted] 100 [] []).

(** No peer at all, and a local copy of the key. *)
Definition alone : World net :=
  world [(dkey, (50%Z, "alice"))] (mkEnv [] false [granted; granted] 100 [] []).

(** Two entries written at time 0, read at time 4000. *)
Definition old_entries (first second : string) : World net :=
  world [([x01], (0%Z, first)); ([x02], (0%Z, second))] (mkEnv [] false [] 4000 [] []).

(** No peer at all, and a controlled value with one member under the key. *)
Definition alone_with_list : World net :=
  world [(dkey, (50%Z, "[v1]"))] (mkEnv [] false [granted; granted] 100 [] []).

(** Three entries written at time 0, read at time 4000, the second of which
    is no JSON document, and one peer that accepts every store. *)
Definition three_old_entries : World net :=
  world [([x01], (0%Z, "{}")); ([x02], (0%Z, "alice")); ([x03], (0%Z, "[1, 2]"))]
    (mkEnv [peer x01] true [] 4000 [] []).

End Runs.

(** ** More observations *)

Section Observations.

Context `{!Utils} `{!Domain}.

(** The events a run of [set key new_value] may leave: crawls toward the
    key's digest, oracle queries under the value's hash, and the propagation
    of [str(new_value)] under the key's digest. *)
Definition set_event (key : pykey) (new_value : Value) (ev : event) : Prop :=
  match ev with
  | EvValueCrawl target _ _ => target = mkNode (digest key) None None
  | EvNodeCrawl target _ => target = mkNode (digest key) None None
  | EvCallStore _ d s _ => d = digest key ∧ s = value_str (Single new_value)
  | EvGetById h _ =>
      h = hex (digest256 (hex (digest key) +:+ sign (authorization new_value)))
  | EvRemotePersist k s => k = key ∧ s = value_str (Single new_value)
  | EvPing _ => False
  end.

End Observations.

Definition is_oracle_query (ev : event) : bool :=
  match ev with EvGetById _ _ => true | _ => false end.

Definition is_store_call (ev : event) : bool :=
  match ev with EvCallStore _ _ _ _ => true | _ => false end.

(** A run that leaves the server object and the files alone and appends only
    events satisfying [E]. *)
Definition run_within {Env} (E : event → Prop) (w w' : World Env) : Prop :=
  self w' = self w ∧ files w' = files w ∧
  ∃ evs, trace w' = trace w ++ evs ∧ Forall E evs.

(** The events of the periodic refresh: node crawls and republishing; a store
    call carries the digest of the digest of some entry in [items]. *)
Definition refresh_event `{!Utils} (items : list (bytes * string)) (ev : event) : Prop :=
  match ev with
  | EvNodeCrawl _ _ => True
  | EvRemotePersist k _ => ∃ dkey value, (dkey, value) ∈ items ∧ k = KBytes dkey
  | EvCallStore _ d _ _ =>
      ∃ dkey value, (dkey, value) ∈ items ∧ d = digest (KBytes dkey)
  | EvValueCrawl _ _ _ | EvGetById _ _ | EvPing _ => False
  end.

(** The answers of the peers at [addrs] to the pings of [bootstrap], asked one
    after the other, and the environment after the last one. *)
Fixpoint ping_all {Env} `{!Environment Env} (e : Env) (id : bytes)
    (addrs : list (option string * option Z)) : list (bool * bytes) * Env :=
  match addrs with
  | [] => ([], e)
  | addr :: rest =>
      let '(answer, e1) := ping e addr id in
      let '(answers, e2) := ping_all e1 id rest in
      (answer :: answers, e2)
  end.

(** The nodes [bootstrap] keeps: one per address whose ping succeeded, with
    the identifier the peer answered and the address that was pinged. *)
Definition responders (addrs : list (option string * option Z))
    (answers : list (bool * bytes)) : list Node :=
  omap id (zip_with (λ (addr : option string * option Z) (answer : bool * bytes),
                       if answer.1 then Some (mkNode answer.2 addr.1 addr.2) else None)
             addrs answers).


(** Reading two hexadecimal digits back as a byte, the inverse of [hex_byte]
    that the facts about [hex] are proved with. *)
Definition unhex_digit (c : ascii) : option N :=
  List.find (λ n, Ascii.eqb (hex_digit n) c) (N.of_nat <$> seq 0 16).

Definition unhex_pair (c1 c2 : ascii) : option byte :=
  match unhex_digit c1, unhex_digit c2 with
  | Some h, Some l => Byte.of_N (16 * h + l)
  | _, _ => None
  end.

(** ** kademlia.tests.utils *)

(** The byte with the value [z mod 256]. *)
Definition byte_of_Z (z : Z) : byte :=
  default x00 (Byte.of_N (Z.to_N (z mod 256))).

Definition Z_of_byte (b : byte) : Z := Z.of_N (Byte.to_N b).

(** [struct.pack('>l', n)]: the four bytes of [n] in two's complement, most
    significant first; [None] stands for the [struct.error] raised for an [n]
    outside 32 signed bits. *)
Definition pack_l (n : Z) : option bytes :=
  if decide (-2147483648 <= n < 2147483648)%Z
  then Some [byte_of_Z (n ≫ 24); byte_of_Z (n ≫ 16); byte_of_Z (n ≫ 8); byte_of_Z n]
  else None.

(** [struct.unpack('>l', b)], the reading that [pack_l] is checked against. *)
Definition unpack_l (b : bytes) : option Z :=
  match b with
  | [b3; b2; b1; b0] =>
      let u := (((Z_of_byte b3 * 256 + Z_of_byte b2) * 256 + Z_of_byte b1) * 256
                + Z_of_byte b0)%Z in
      Some (if (u <? 2147483648)%Z then u else u - 4294967296)%Z
  | _ => None
  end.

(** [hashlib.sha1(s.encode()).digest()]. *)
Class Hashlib := { sha1 : string → bytes }.

(** [mknode(node_id, ip, port, intid)]; the result is [None] when [pack]
    raises, and the environment steps only when a random identifier is
    drawn. *)
Definition mknode {Env} `{!Environment Env} `{!Hashlib}
    (id : option bytes) (ip : option string) (port : option Z) (intid : option Z)
    (e : Env) : option Node * Env :=
  let packed :=
    match intid with
    | Some n => Some <$> pack_l n
    | None => Some id
    end in
  match packed with
  | None => (None, e)
  | Some (Some (b :: rest)) => (Some (mkNode (b :: rest) ip port), e)
  | Some _ =>
      let '(r, e') := getrandbits e 255 in
      let randbits := pretty r in
      (Some (mkNode (sha1 randbits) ip port), e')
  end.

(** ** The server's timers

    [refresh_table], [saveStateRegularly], [listen] and [stop] work on the
    event loop and on four fields of the server that the coroutines above do
    not read: [transport], [protocol], [refresh_loop] and [save_state_loop].
    A process is the world of the coroutines together with these fields and
    with what the loop holds for the server: the timer handles that
    [call_later] returned and the refresh coroutines that [ensure_future]
    scheduled. *)

Inductive callback :=
  | CbRefreshTable
  | CbSaveStateRegularly (fname : string) (frequency : Z).

Inductive handle_state := Armed | Fired | Cancelled.

Record TimerHandle := mkHandle {
  due : Z;
  callback_of : callback;
  state_of : handle_state
}.

Record Process (Env : Type) := mkProcess {
  proc_world : World Env;
  transport : option bool;
  refresh_loop : option nat;
  save_state_loop : option nat;
  timers : list TimerHandle;
  pending_refreshes : nat
}.
Arguments mkProcess {Env}.
Arguments proc_world {Env}.
Arguments transport {Env}.
Arguments refresh_loop {Env}.
Arguments save_state_loop {Env}.
Arguments timers {Env}.
Arguments pending_refreshes {Env}.

Section Timers.

Context {Env : Type} `{!Environment Env} `{!Utils} `{!Domain} `{!Json}.

(** A server right after [__init__]. *)
Definition fresh (w : World Env) : Process Env := mkProcess w None None None [] 0.

(** [loop.call_later(delay, cb)]: a new armed handle, due [delay] seconds
    from now; the handle is known by its position among the timers. *)
Definition call_later (delay : Z) (cb : callback) (p : Process Env) : nat * Process Env :=
  (length (timers p),
   mkProcess (proc_world p) (transport p) (refresh_loop p) (save_state_loop p)
     (timers p ++ [mkHandle (monotonic (env (proc_world p)) + delay) cb Armed])
     (pending_refreshes p)).

Definition set_state (s : handle_state) (h : TimerHandle) : TimerHandle :=
  mkHandle (due h) (callback_of h) s.

(** [handle.cancel()]: an armed handle will not fire; a handle that has fired
    or was cancelled stays as it is. *)
Definition cancel (i : nat) (p : Process Env) : Process Env :=
  mkProcess (proc_world p) (transport p) (refresh_loop p) (save_state_loop p)
    (alter (λ h, match state_of h with Armed => set_state Cancelled h | _ => h end)
       i (timers p))
    (pending_refreshes p).

Definition refresh_table (p : Process Env) : Process Env :=
  let p1 := mkProcess (proc_world p) (transport p) (refresh_loop p) (save_state_loop p)
              (timers p) (S (pending_refreshes p)) in
  let '(h, p2) := call_later 3600 CbRefreshTable p1 in
  mkProcess (proc_world p2) (transport p2) (Some h) (save_state_loop p2)
    (timers p2) (pending_refreshes p2).

Definition saveStateRegularly (fname : string) (frequency : Z) (p : Process Env)
  : outcome () * Process Env :=
  match saveState fname (proc_world p) with
  | (Ok _, w') =>
      let p1 := mkProcess w' (transport p) (refresh_loop p) (save_state_loop p)
                  (timers p) (pending_refreshes p) in
      let '(h, p2) := call_later frequency (CbSaveStateRegularly fname frequency) p1 in
      (Ok (),
       mkProcess (proc_world p2) (transport p2) (refresh_loop p2) (Some h)
         (timers p2) (pending_refreshes p2))
  | (Raise e, w') =>
      (Raise e,
       mkProcess w' (transport p) (refresh_loop p) (save_state_loop p)
         (timers p) (pending_refreshes p))
  end.

(** [listen(port, interface)], given whether the loop could bind the
    endpoint; when it could not, the exception of the loop leaves [listen]
    ([None]) before anything is scheduled. *)
Definition listen (bound : bool) (p : Process Env) : option (Process Env) :=
  if bound
  then Some (refresh_table
               (mkProcess (proc_world p) (Some true) (refresh_loop p) (save_state_loop p)
                  (timers p) (pending_refreshes p)))
  else None.

Definition stop (p : Process Env) : Process Env :=
  let p1 :=
    match transport p with
    | Some _ => mkProcess (proc_world p) (Some false) (refresh_loop p) (save_state_loop p)
                  (timers p) (pending_refreshes p)
    | None => p
    end in
  let p2 := match refresh_loop p1 with Some h => cancel h p1 | None => p1 end in
  match save_state_loop p2 with Some h => cancel h p2 | None => p2 end.

(** What the loop does when a timer is due. *)
Definition run_callback (cb : callback) (p : Process Env) : Process Env :=
  match cb with
  | CbRefreshTable => refresh_table p
  | CbSaveStateRegularly fname frequency => (saveStateRegularly fname frequency p).2
  end.

Definition mark_fired (i : nat) (p : Process Env) : Process Env :=
  mkProcess (proc_world p) (transport p) (refresh_loop p) (save_state_loop p)
    (alter (set_state Fired) i (timers p)) (pending_refreshes p).

(** One turn of the event loop for the server: an armed timer fires and its
    callback runs, or a scheduled [_refresh_table] coroutine runs (an
    exception it raises stays in its task). *)
Inductive loop_step : Process Env → Process Env → Prop :=
  | step_timer p i h :
      timers p !! i = Some h → state_of h = Armed →
      loop_step p (run_callback (callback_of h) (mark_fired i p))
  | step_refresh p n :
      pending_refreshes p = S n →
      loop_step p (mkProcess (_refresh_table (proc_world p)).2 (transport p)
                     (refresh_loop p) (save_state_loop p) (timers p) n).

(** The processes of a server used as intended: [listen] once on a fresh
    server, at most one [saveStateRegularly] from outside the loop, and the
    loop running. *)
Inductive started : Process Env → Prop :=
  | started_listen w p : listen true (fresh w) = Some p → started p
  | started_snapshots p fname frequency :
      started p → save_state_loop p = None →
      started (saveStateRegularly fname frequency p).2
  | started_step p p' : started p → loop_step p p' → started p'.

(** Every armed handle is the one the server holds for its callback. *)
Definition tidy (p : Process Env) : Prop :=
  ∀ i h, timers p !! i = Some h → state_of h = Armed →
    match callback_of h with
    | CbRefreshTable => refresh_loop p = Some i
    | CbSaveStateRegularly _ _ => save_state_loop p = Some i
    end.

End Timers.

(** More worlds for the runs at the end of the file. *)
Module MoreRuns.
Import Sample Runs.

#[local] Existing Instances environment utils domain json_module.

(** Two entries written at time 0, read at time 4000, and one peer that
    refuses every store. *)
Definition old_entries_with_peer (first second : string) : World net :=
  world [([x01], (0%Z, first)); ([x02], (0%Z, second))]
    (mkEnv [peer x01] false [] 4000 [] [[x07]]).

(** A server that has just called [listen]. *)
Definition listening : Process net :=
  refresh_table (mkProcess (authorized true []) (Some true) None None [] 0).

(** A listening server with both timers armed; the snapshots go to the empty
    path, which cannot be opened. *)
Definition snapshot_due : Process net :=
  mkProcess (authorized true []) (Some true) (Some 0) (Some 1)
    [mkHandle 3700 CbRefreshTable Armed; mkHandle 700 (CbSaveStateRegularly "" 600) Armed]
    1.

End MoreRuns.

(** * Properties *)

Example hex_of_two_bytes : hex [x00; xff] = "00ff".
Proof. reflexivity. Qed.

Example most_common_tie_goes_to_first_seen :
  select_most_common_response [] [of_params [] (Some "B"); of_params [] None;
                                  of_params [] (Some "A")] = Some "B".
Proof. reflexivity. Qed.

Example most_common_majority_beats_first_seen :
  select_most_common_response [] [of_params [] (Some "B"); of_params [] (Some "A");
                                  of_params [] (Some "A")] = Some "A".
Proof. reflexivity. Qed.

(** ** select_most_common_response *)

Module MostCommonFacts.
Import MostCommon.

Lemma lookup_group_bump q p g :
  lookup_group q (bump p g) =
    if decide (q = p) then Some (S (default 0 (lookup_group p g))) else lookup_group q g.
Proof.
  induction g as [|[k n] g IH]; simpl.
  - by destruct (decide (q = p)).
  - destruct (decide (p = k)) as [->|Hpk]; simpl.
    + destruct (decide (q = k)) as [->|Hqk]; [|done].
      by destruct (decide (k = k)).
    + rewrite IH. destruct (decide (q = k)) as [->|Hqk].
      * by destruct (decide (k = p)); [congruence|].
      * destruct (decide (q = p)) as [->|]; [|done].
        by destruct (decide (p = k)).
Qed.

Lemma keys_bump p g :
  (bump p g).*1 = g.*1 ++ (if decide (p ∈ g.*1) then [] else [p]).
Proof.
  induction g as [|[k n] g IH].
  - by destruct (decide (p ∈ ([] : list (string * nat)).*1)) as [?%elem_of_nil|].
  - cbn [bump]. destruct (decide (p = k)) as [->|Hpk].
    + destruct (decide (k ∈ ((k, n) :: g).*1)) as [|Hn].
      * by rewrite app_nil_r.
      * exfalso. apply Hn. set_solver.
    + rewrite fmap_cons, IH. cbn [fst]. rewrite fmap_cons. cbn [fst].
      destruct (decide (p ∈ g.*1)), (decide (p ∈ k :: g.*1)); set_solver.
Qed.

Lemma tally_snoc l p : tally (l ++ [p]) = bump p (tally l).
Proof. unfold tally. by rewrite foldl_app. Qed.

Lemma occurrences_snoc q l p :
  occurrences q (l ++ [p]) = occurrences q l + (if decide (q = p) then 1 else 0).
Proof. induction l as [|x l IH]; simpl; [lia|]. rewrite IH. lia. Qed.

Lemma occurrences_pos q l : q ∈ l ↔ 0 < occurrences q l.
Proof.
  induction l as [|x l IH]; simpl.
  - split; [by intros ?%elem_of_nil | lia].
  - rewrite elem_of_cons, IH. destruct (decide (q = x)); simpl; [|naive_solver].
    split; [lia | auto].
Qed.

Lemma lookup_group_tally q l :
  lookup_group q (tally l) =
    if decide (occurrences q l = 0) then None else Some (occurrences q l).
Proof.
  induction l as [|p l IH] using rev_ind; [done|].
  rewrite tally_snoc, lookup_group_bump, occurrences_snoc.
  destruct (decide (q = p)) as [->|Hqp].
  - rewrite IH. destruct (decide (occurrences p l = 0)) as [->|]; simpl.
    + done.
    + rewrite decide_False by lia. f_equal. lia.
  - rewrite IH, Nat.add_0_r. done.
Qed.

Lemma keys_tally_elem q l : q ∈ (tally l).*1 ↔ q ∈ l.
Proof.
  induction l as [|p l IH] using rev_ind; [done|].
  rewrite tally_snoc, keys_bump, elem_of_app, elem_of_app, <- IH.
  destruct (decide (p ∈ (tally l).*1)); set_solver.
Qed.

Lemma keys_tally_NoDup l : NoDup (tally l).*1.
Proof.
  induction l as [|p l IH] using rev_ind; [constructor|].
  rewrite tally_snoc, keys_bump. destruct (decide (p ∈ (tally l).*1)).
  - by rewrite app_nil_r.
  - apply NoDup_app. split_and!; [done| |apply NoDup_singleton]. set_solver.
Qed.

Lemma lookup_group_elem q m g :
  NoDup g.*1 → (q, m) ∈ g → lookup_group q g = Some m.
Proof.
  induction g as [|[k n] g IH]; simpl; intros Hnd Hin.
  - by apply elem_of_nil in Hin.
  - apply NoDup_cons in Hnd as [Hk Hnd]. apply elem_of_cons in Hin as [Heq|Hin].
    + inversion Heq; subst. by rewrite decide_True.
    + rewrite decide_False; [auto|]. intros ->. apply Hk.
      apply list_elem_of_fmap. by exists (k, m).
Qed.

Lemma tally_elem q m l : (q, m) ∈ tally l → m = occurrences q l ∧ 0 < m.
Proof.
  intros Hin. pose proof (lookup_group_elem _ _ _ (keys_tally_NoDup l) Hin) as Hl.
  rewrite lookup_group_tally in Hl. destruct (decide (occurrences q l = 0)); [done|].
  inversion Hl. lia.
Qed.

(** The groups stand in the order in which their payloads were first seen. *)
Lemma keys_tally_order l k1 p k2 :
  (tally l).*1 = k1 ++ p :: k2 →
  ∃ l1 l2, l = l1 ++ p :: l2 ∧ ∀ x, x ∈ l1 → x ∈ k1.
Proof.
  revert k1 k2. induction l as [|x l IH] using rev_ind; intros k1 k2 Hk.
  - by destruct k1.
  - rewrite tally_snoc, keys_bump in Hk. destruct (decide (x ∈ (tally l).*1)) as [Hx|Hx].
    + rewrite app_nil_r in Hk. destruct (IH _ _ Hk) as (l1 & l2 & -> & Hsub).
      exists l1, (l2 ++ [x]). by rewrite <- app_assoc.
    + destruct k2 as [|y k2 _] using rev_ind.
      * apply app_inj_tail in Hk as [Hk ->]. exists l, []. split; [done|].
        intros y Hy. rewrite <- Hk. by apply keys_tally_elem.
      * rewrite app_comm_cons, app_assoc in Hk. apply app_inj_tail in Hk as [Hk ->].
        destruct (IH _ _ Hk) as (l1 & l2 & -> & Hsub).
        exists l1, (l2 ++ [y]). by rewrite <- app_assoc.
Qed.

Lemma first_max_None g : first_max g = None ↔ g = [].
Proof.
  destruct g as [|h g]; [done|]. simpl.
  destruct (first_max g); [destruct (_ <? _)|]; done.
Qed.

Lemma first_max_Some g p n :
  first_max g = Some (p, n) →
  ∃ g1 g2, g = g1 ++ (p, n) :: g2 ∧
    (∀ h, h ∈ g1 → h.2 < n) ∧ (∀ h, h ∈ g2 → h.2 ≤ n).
Proof.
  revert p n. induction g as [|h g IH]; simpl; intros p n Hm; [done|].
  destruct (first_max g) as [[p' n']|] eqn:Hg.
  - destruct (IH _ _ eq_refl) as (g1 & g2 & -> & Hlt & Hle).
    simpl in Hm. destruct (h.2 <? n') eqn:Hcmp; inversion Hm; subst.
    + apply Nat.ltb_lt in Hcmp. exists (h :: g1), g2. split_and!; [done| |done].
      intros x [->|Hx]%elem_of_cons; auto.
    + apply Nat.ltb_ge in Hcmp. exists [], (g1 ++ (p', n') :: g2).
      split_and!; [done|by intros ? ?%elem_of_nil|].
      intros x [Hx|[->|Hx]%elem_of_cons]%elem_of_app; simpl in *.
      * apply Hlt in Hx. lia.
      * done.
      * apply Hle in Hx. lia.
  - inversion Hm; subst. apply first_max_None in Hg as ->.
    exists [], []. split_and!; [done|by intros ? ?%elem_of_nil..].
Qed.

Lemma payloads_nil responses :
  payloads responses = [] ↔ Forall (λ m, nm_data m = None) responses.
Proof.
  unfold payloads. induction responses as [|m ms IH]; simpl.
  - split; [constructor|done].
  - rewrite Forall_cons. destruct (nm_data m); simpl; [|naive_solver].
    split; [done|]. by intros [? _].
Qed.

Lemma tally_nil l : tally l = [] ↔ l = [].
Proof.
  split; [|by intros ->]. intros Ht. destruct l as [|p l]; [done|].
  assert (p ∈ (tally (p :: l)).*1) as Hin by (apply keys_tally_elem; set_solver).
  rewrite Ht in Hin. by apply elem_of_nil in Hin.
Qed.

End MostCommonFacts.

(** C3: [select_most_common_response] returns [None] exactly when no response
    carries data (so for the empty list too); otherwise it returns the payload
    of a data-bearing response that occurs at least as often as any other
    payload and that was seen before every other payload occurring equally
    often; for the responses [A, A, A, B] it returns [A]. *)
Theorem select_most_common_response_majority (dkey : bytes) (responses : list NodeMessage) :
  (select_most_common_response dkey responses = None ↔
     Forall (λ m, nm_data m = None) responses) ∧
  (∀ p, select_most_common_response dkey responses = Some p →
     let ps := MostCommon.payloads responses in
     p ∈ ps ∧
     (∀ q, MostCommon.occurrences q ps ≤ MostCommon.occurrences p ps) ∧
     (∀ q, q ≠ p → MostCommon.occurrences q ps = MostCommon.occurrences p ps →
           MostCommon.seen_before p q ps)) ∧
  (∀ a b, select_most_common_response dkey
            [of_params dkey (Some a); of_params dkey (Some a);
             of_params dkey (Some a); of_params dkey (Some b)] = Some a).
Proof.
  unfold select_most_common_response. split; [|split].
  - rewrite fmap_None, MostCommonFacts.first_max_None, MostCommonFacts.tally_nil.
    apply MostCommonFacts.payloads_nil.
  - intros p Hsel. set (ps := MostCommon.payloads responses) in *.
    apply fmap_Some in Hsel as ([p' n] & Hmax & ->). simpl.
    destruct (MostCommonFacts.first_max_Some _ _ _ Hmax) as (g1 & g2 & Hg & Hlt & Hle).
    assert ((p', n) ∈ MostCommon.tally ps) as Hin by (rewrite Hg; set_solver).
    destruct (MostCommonFacts.tally_elem _ _ _ Hin) as [Hn Hpos].
    assert (∀ q m, (q, m) ∈ MostCommon.tally ps → m = MostCommon.occurrences q ps) as Hcnt
      by (intros q m Hq; by apply MostCommonFacts.tally_elem in Hq as [? _]).
    split_and!.
    + apply MostCommonFacts.occurrences_pos. lia.
    + intros q. destruct (decide (q ∈ ps)) as [Hq|Hq].
      * apply MostCommonFacts.keys_tally_elem, list_elem_of_fmap in Hq as ([q' m] & -> & Hq).
        simpl. rewrite <- (Hcnt _ _ Hq), <- Hn.
        rewrite Hg in Hq. apply elem_of_app in Hq as [Hq|[Hq|Hq]%elem_of_cons].
        -- apply Hlt in Hq. simpl in Hq. lia.
        -- by inversion Hq.
        -- by apply Hle in Hq.
      * rewrite MostCommonFacts.occurrences_pos in Hq. lia.
    + intros q Hqp Heq.
      assert ((MostCommon.tally ps).*1 = g1.*1 ++ p' :: g2.*1) as Hk
        by (by rewrite Hg, fmap_app).
      destruct (MostCommonFacts.keys_tally_order _ _ _ _ Hk) as (l1 & l2 & Hps & Hsub).
      exists l1, l2. split; [done|]. intros Hq1. apply Hsub in Hq1.
      apply list_elem_of_fmap in Hq1 as ([q' m] & -> & Hq1). simpl in *.
      assert ((q', m) ∈ MostCommon.tally ps) as Hq by (rewrite Hg; set_solver).
      apply Hcnt in Hq. apply Hlt in Hq1. simpl in Hq1. lia.
  - intros a b. unfold MostCommon.payloads, MostCommon.tally. simpl.
    repeat (rewrite decide_True by done; simpl).
    by destruct (decide (b = a)).
Qed.

(** ** Running the server's coroutines *)

Section ServerFacts.

Context {Env : Type} `{!Environment Env} `{!Utils} `{!Domain} `{!Json}.

Implicit Types (w : World Env) (key : pykey) (v : Value).

Lemma outside_only_refl w : outside_only w w.
Proof. split_and!; [done..|]. exists []. by rewrite app_nil_r. Qed.

Lemma outside_only_trans w1 w2 w3 :
  outside_only w1 w2 → outside_only w2 w3 → outside_only w1 w3.
Proof.
  intros (Hs & Hf & evs & Ht) (Hs' & Hf' & evs' & Ht').
  split_and!; [congruence..|]. exists (evs ++ evs'). by rewrite Ht', Ht, app_assoc.
Qed.

Lemma new_events_app w w' evs : trace w' = trace w ++ evs → new_events w w' = evs.
Proof. intros Ht. unfold new_events. by rewrite Ht, drop_app_length. Qed.

Lemma NodeSpiderCrawl_find_run target nearest w :
  NodeSpiderCrawl_find target nearest w =
    let r := find_nodes (env w) target nearest (ksize (self w)) (alpha (self w)) in
    (Ok r.1, mkWorld (self w) r.2 (files w) (trace w ++ [EvNodeCrawl target nearest])).
Proof.
  unfold NodeSpiderCrawl_find, bind, self_read, log, env_step. simpl.
  by destruct (find_nodes _ _ _ _ _).
Qed.

Lemma ValueSpiderCrawl_find_run target nearest seed w :
  ValueSpiderCrawl_find target nearest seed w =
    let r := find_value_gather (env w) target nearest (ksize (self w)) (alpha (self w)) in
    (Ok (seed ++ r.1),
     mkWorld (self w) r.2 (files w) (trace w ++ [EvValueCrawl target nearest seed])).
Proof.
  unfold ValueSpiderCrawl_find, bind, self_read, log, env_step, ret. simpl.
  by destruct (find_value_gather _ _ _ _ _).
Qed.

Lemma _get_dtl_record_run dkey v w :
  _get_dtl_record dkey v w =
    let value__hash := hex (digest256 (hex dkey +:+ sign (authorization v))) in
    let r := get_by_id (env w) value__hash in
    (Ok r.1, mkWorld (self w) r.2 (files w) (trace w ++ [EvGetById value__hash r.1])).
Proof.
  unfold _get_dtl_record, bind, log, env_step, ret. simpl.
  by destruct (get_by_id _ _).
Qed.

(** [get] in one step: the early return without neighbours, and otherwise one
    value crawl seeded with the local copy. *)
Lemma get_run key w :
  get key w =
    let dkey := digest key in
    let target := mkNode dkey None None in
    let nearest := findNeighbors (env w) target None in
    match nearest with
    | [] => (Ok (of_params dkey None), w)
    | _ :: _ =>
        let seed := local_seed dkey
                      (Storage.get (monotonic (env w)) (storage (self w)) dkey) in
        let r := find_value_gather (env w) target nearest
                   (ksize (self w)) (alpha (self w)) in
        (Ok (of_params dkey (select_most_common_response dkey (seed ++ r.1))),
         mkWorld (self w) r.2 (files w) (trace w ++ [EvValueCrawl target nearest seed]))
    end.
Proof.
  unfold get, bind at 1, env_read. simpl.
  destruct (findNeighbors _ _ _) as [|n nearest] eqn:Hn; [done|]. simpl.
  unfold storage_get, bind, env_read, self_read, ret. simpl.
  destruct (Storage.get _ _ _) as [lv|]; simpl.
  - destruct (str_truthy lv); rewrite ValueSpiderCrawl_find_run; done.
  - rewrite ValueSpiderCrawl_find_run. done.
Qed.

Lemma get_outside_only key w :
  ∃ resp w', get key w = (Ok resp, w') ∧ outside_only w w'.
Proof.
  rewrite get_run. simpl. destruct (findNeighbors _ _ _).
  - eexists _, _. split; [done|]. apply outside_only_refl.
  - eexists _, _. split; [done|]. split_and!; [done..|]. by eexists.
Qed.

Lemma republish_calls_app evs evs' :
  republish_calls (evs ++ evs') = republish_calls evs ++ republish_calls evs'.
Proof. unfold republish_calls. apply omap_app. Qed.

Lemma bind_Ok {A B} (m : M Env A) (k : A → M Env B) w a w' :
  m w = (Ok a, w') → bind m k w = k a w'.
Proof. intros Hm. unfold bind. by rewrite Hm. Qed.

Lemma bind_Raise {A B} (m : M Env A) (k : A → M Env B) w e w' :
  m w = (Raise e, w') → bind m k w = (Raise e, w').
Proof. intros Hm. unfold bind. by rewrite Hm. Qed.

Lemma protocol_callStore_run n dkey value w :
  protocol_callStore n dkey value w =
    let r := callStore (env w) n dkey value in
    (Ok r.1, mkWorld (self w) r.2 (files w) (trace w ++ [EvCallStore n dkey value r.1])).
Proof.
  unfold protocol_callStore, bind, env_step, log, ret. simpl.
  by destruct (callStore _ _ _ _).
Qed.

Lemma gather_callStore nodes dkey value w :
  ∃ results w',
    gather ((λ n, protocol_callStore n dkey value) <$> nodes) w = (Ok results, w') ∧
    self w' = self w ∧ files w' = files w ∧
    trace w' = trace w ++ zip_with (λ n ok, EvCallStore n dkey value ok) nodes results ∧
    length results = length nodes.
Proof.
  revert w. induction nodes as [|n nodes IH]; intros w.
  - exists [], w. split_and!; [done..| |done]. simpl. by rewrite app_nil_r.
  - rewrite fmap_cons. cbn [gather].
    rewrite (bind_Ok _ _ _ _ _ (protocol_callStore_run n dkey value w)).
    match goal with |- context [mkWorld ?a ?b ?c ?d] =>
      destruct (IH (mkWorld a b c d)) as (results & w' & Hg & Hs & Hf & Ht & Hl) end.
    rewrite (bind_Ok _ _ _ _ _ Hg). unfold ret.
    eexists (_ :: results), w'. split_and!; [done..| |simpl; lia].
    rewrite Ht. simpl. by rewrite <- app_assoc.
Qed.

Lemma any_accepted nodes results dkey value :
  length results = length nodes →
  any results = true ↔
    ∃ peer, EvCallStore peer dkey value true
              ∈ zip_with (λ n ok, EvCallStore n dkey value ok) nodes results.
Proof.
  unfold any. revert results.
  induction nodes as [|n nodes IH]; intros [|ok results] Hl; simpl in *; try lia.
  - split; [done|]. by intros [? ?%elem_of_nil].
  - rewrite orb_true_iff, IH by lia. split.
    + intros [Hok|[peer Hp]].
      * exists n. unfold id in Hok. subst. apply elem_of_cons. by left.
      * exists peer. apply elem_of_cons. by right.
    + intros [peer [Heq|Hp]%elem_of_cons].
      * left. by inversion Heq.
      * right. by exists peer.
Qed.

Lemma republish_calls_callStore nodes results dkey value :
  republish_calls (zip_with (λ n ok, EvCallStore n dkey value ok) nodes results) = [].
Proof.
  revert results. induction nodes as [|n nodes IH]; intros [|ok results]; try done.
  simpl. apply IH.
Qed.

(** [_call_remote_persist] never raises, leaves the server object alone, and
    answers with whether some store call was accepted. *)
Lemma _call_remote_persist_run key value w :
  ∃ b w' evs,
    _call_remote_persist key value w = (Ok b, w') ∧
    self w' = self w ∧ files w' = files w ∧
    trace w' = trace w ++ EvRemotePersist key value :: evs ∧
    republish_calls evs = [] ∧
    (b = true ↔ ∃ peer, EvCallStore peer (digest key) value true ∈ evs) ∧
    (findNeighbors (env w) (mkNode (digest key) None None) None = [] →
       b = false ∧ evs = [] ∧ env w' = env w) ∧
    (∀ peer d s ok, EvCallStore peer d s ok ∈ evs → d = digest key ∧ s = value).
Proof.
  unfold _call_remote_persist.
  erewrite bind_Ok by (unfold log; reflexivity).
  erewrite bind_Ok by (unfold env_read; reflexivity). simpl.
  destruct (findNeighbors _ _ _) as [|n nearest] eqn:Hn; simpl.
  - exists false, (mkWorld (self w) (env w) (files w) (trace w ++ [EvRemotePersist key value])), [].
    split_and!; try done.
    + split; [done|]. by intros [? ?%elem_of_nil].
    + by intros ???? ?%elem_of_nil.
  - erewrite bind_Ok by apply NodeSpiderCrawl_find_run. simpl.
    set (nodes := (find_nodes _ _ _ _ _).1).
    match goal with |- context [mkWorld ?a ?b ?c ?d] =>
      destruct (gather_callStore nodes (digest key) value (mkWorld a b c d))
        as (results & w' & Hg & Hs & Hf & Ht & Hl) end.
    erewrite bind_Ok by apply Hg. unfold ret. simpl in *.
    exists (any results), w',
      (EvNodeCrawl (mkNode (digest key) None None) (n :: nearest)
         :: zip_with (λ n ok, EvCallStore n (digest key) value ok) nodes results).
    split_and!; try done.
    + rewrite Ht, <- !app_assoc. done.
    + simpl. apply republish_calls_callStore.
    + rewrite (any_accepted nodes results (digest key) value Hl).
      split; intros [peer Hp]; exists peer.
      * apply elem_of_cons. by right.
      * by apply elem_of_cons in Hp as [|].
    + intros peer d s ok [Hp|Hp]%elem_of_cons; [done|].
      clear -Hp. revert results Hp.
      induction nodes as [|m nodes IH]; intros [|r results] Hp;
        try by apply elem_of_nil in Hp.
      simpl in Hp. apply elem_of_cons in Hp as [Hp|Hp]; [by inversion Hp|eauto].
Qed.

Lemma store_all_length (e : Env) nodes dkey value :
  length (store_all e nodes dkey value).1 = length nodes.
Proof.
  revert e. induction nodes as [|n nodes IH]; intros e; simpl; [done|].
  destruct (callStore e n dkey value) as [ok e1]. specialize (IH e1).
  destruct (store_all e1 nodes dkey value) as [oks e2]. simpl in *. by rewrite IH.
Qed.

(** The gathered store calls return what the peers answered, one after the
    other. *)
Lemma gather_store_all nodes dkey value w :
  gather ((λ n, protocol_callStore n dkey value) <$> nodes) w =
    let answers := store_all (env w) nodes dkey value in
    (Ok answers.1,
     mkWorld (self w) answers.2 (files w)
       (trace w ++ zip_with (λ n ok, EvCallStore n dkey value ok) nodes answers.1)).
Proof.
  revert w. induction nodes as [|n nodes IH]; intros w.
  - simpl. unfold ret. rewrite app_nil_r. by destruct w.
  - rewrite fmap_cons. cbn [gather].
    rewrite (bind_Ok _ _ _ _ _ (protocol_callStore_run n dkey value w)).
    rewrite (bind_Ok _ _ _ _ _ (IH _)). unfold ret. cbn [store_all]. simpl.
    destruct (callStore (env w) n dkey value) as [ok e1]. simpl.
    destruct (store_all e1 nodes dkey value) as [oks e2]. simpl.
    by rewrite <- app_assoc.
Qed.

Lemma any_lookup (bs : list bool) : any bs = true ↔ ∃ i, bs !! i = Some true.
Proof.
  unfold any. induction bs as [|b bs IH]; simpl.
  - split; [done|]. by intros [i Hi].
  - rewrite orb_true_iff, IH. split.
    + intros [Hb|[i Hi]]; [exists 0; simpl; by f_equal|by exists (S i)].
    + intros [[|i] Hi]; simpl in Hi; [left; by injection Hi|right; by exists i].
Qed.

(** [_call_remote_persist] in one step: the early return without neighbours,
    and otherwise one node crawl and one store call on each node it found. *)
Lemma _call_remote_persist_answers key value w :
  _call_remote_persist key value w =
    let dkey := digest key in
    let target := mkNode dkey None None in
    let nearest := findNeighbors (env w) target None in
    match nearest with
    | [] =>
        (Ok false,
         mkWorld (self w) (env w) (files w) (trace w ++ [EvRemotePersist key value]))
    | _ :: _ =>
        let crawl := find_nodes (env w) target nearest (ksize (self w)) (alpha (self w)) in
        let answers := store_all crawl.2 crawl.1 dkey value in
        (Ok (any answers.1),
         mkWorld (self w) answers.2 (files w)
           (trace w ++ EvRemotePersist key value :: EvNodeCrawl target nearest
              :: zip_with (λ n ok, EvCallStore n dkey value ok) crawl.1 answers.1))
    end.
Proof.
  unfold _call_remote_persist.
  erewrite bind_Ok by (unfold log; reflexivity).
  erewrite bind_Ok by (unfold env_read; reflexivity). simpl.
  destruct (findNeighbors _ _ _) as [|n nearest] eqn:Hn; simpl; [done|].
  erewrite bind_Ok by apply NodeSpiderCrawl_find_run. simpl.
  erewrite bind_Ok by apply gather_store_all. unfold ret. simpl.
  by rewrite <- !app_assoc.
Qed.

(** [_persist_locally] in one step, from the answer of [get]. *)
Lemma _persist_locally_run key v w resp w1 :
  get key w = (Ok resp, w1) →
  _persist_locally key v w =
    let dkey := digest key in
    let value__hash := hex (digest256 (hex dkey +:+ sign (authorization v))) in
    let c1 := get_by_id (env w1) value__hash in
    let w2 := mkWorld (self w1) c1.2 (files w1) (trace w1 ++ [EvGetById value__hash c1.1]) in
    match c1.1 with
    | None => (Raise UnauthorizedOperationException, w2)
    | Some _ =>
        match merge_result dkey v (nm_data resp) with
        | Raise e => (Raise e, w2)
        | Ok result =>
            let c2 := get_by_id c1.2 value__hash in
            let w3 := mkWorld (self w1) c2.2 (files w1)
                        (trace w2 ++ [EvGetById value__hash c2.1]) in
            match c2.1 with
            | None => (Raise UnauthorizedOperationException, w3)
            | Some _ =>
                (Ok (),
                 mkWorld (mkServer (ksize (self w1)) (alpha (self w1))
                            (Storage.set (monotonic c2.2) (storage (self w1)) dkey
                               (value_str result))
                            (node (self w1)))
                   c2.2 (files w1) (trace w3))
            end
        end
    end.
Proof.
  intros Hget. unfold _persist_locally, bind at 1. rewrite Hget.
  unfold bind at 1. rewrite _get_dtl_record_run. simpl.
  destruct (get_by_id (env w1) _) as [[record|] e1]; simpl; [|done].
  unfold bind at 1, lift. destruct (merge_result _ _ _) as [result|e]; simpl; [|done].
  unfold bind at 1. rewrite _get_dtl_record_run. simpl.
  destruct (get_by_id e1 _) as [[record'|] e2]; simpl; done.
Qed.

Lemma set_valid key v w :
  is_valid v = true →
  set key v w =
    bind (_persist_locally key v) (λ _, _call_remote_persist key (value_str (Single v))) w.
Proof. intros Hv. unfold set. by rewrite Hv. Qed.

Lemma storage_get_set now st k s :
  (0 <= Storage.ttl st)%Z → Storage.get now (Storage.set now st k s) k = Some s.
Proof.
  intros Httl. unfold Storage.get, Storage.set. simpl.
  assert (∀ l, Storage.find k (filter (λ e, e.1 ≠ k) l ++ [(k, (now, s))]) = Some (now, s))
    as ->.
  { induction l as [|[k' e] l IH]; simpl.
    - by rewrite decide_True.
    - rewrite filter_cons. simpl. destruct (decide (k' ≠ k)); [|done].
      simpl. by rewrite decide_False. }
  unfold Storage.live. simpl. rewrite Z.sub_diag.
  by destruct (Z.leb_spec 0 (Storage.ttl st)); [|lia].
Qed.

(** ** get *)

(** C5: when the routing table yields no neighbour for the key's digest,
    [get] returns the message for that digest without data; it does not
    raise and the world, its trace included, is left as it was, so no lookup
    went out. *)
Theorem get_without_neighbors key w :
  findNeighbors (env w) (mkNode (digest key) None None) None = [] →
  get key w = (Ok (of_params (digest key) None), w).
Proof. intros Hn. rewrite get_run. simpl. by rewrite Hn. Qed.

(** C7, amended: with at least one known neighbour and a local copy that is
    not the empty string, [get] runs exactly one value crawl, seeded with the
    local copy wrapped as a message, and the answer is resolved by
    [select_most_common_response] over the local message followed by the
    gathered responses. *)
Theorem get_seeds_crawl_with_local_copy key w local_value :
  findNeighbors (env w) (mkNode (digest key) None None) None ≠ [] →
  Storage.get (monotonic (env w)) (storage (self w)) (digest key) = Some local_value →
  str_truthy local_value = true →
  let dkey := digest key in
  let target := mkNode dkey None None in
  let nearest := findNeighbors (env w) target None in
  let local_message := of_params dkey (Some local_value) in
  ∃ responses w',
    get key w =
      (Ok (of_params dkey (select_most_common_response dkey (local_message :: responses))),
       w') ∧
    new_events w w' = [EvValueCrawl target nearest [local_message]] ∧
    responses = (find_value_gather (env w) target nearest (ksize (self w)) (alpha (self w))).1.
Proof.
  intros Hn Hlocal Htruthy. simpl. rewrite get_run. simpl.
  destruct (findNeighbors _ _ _) as [|n nearest] eqn:Hnear; [done|].
  rewrite Hlocal. unfold local_seed. rewrite Htruthy. simpl.
  eexists _, _. split_and!; [done| |done].
  by apply new_events_app.
Qed.

(** ** set *)

(** C1: for a value whose own signature is valid, [set] raises
    [UnauthorizedOperationException] and leaves the local store as it was
    whenever the oracle, asked under the hash
    [digest256(hex(digest(key)) + signature)], answers with no record at the
    check before the merge, or at the check after a merge that went through;
    the refusing query is the last event of the run. *)
Theorem set_refused_without_authorization key v w resp w1 :
  is_valid v = true →
  get key w = (Ok resp, w1) →
  let dkey := digest key in
  let value__hash := hex (digest256 (hex dkey +:+ sign (authorization v))) in
  let before := get_by_id (env w1) value__hash in
  let after := get_by_id before.2 value__hash in
  (before.1 = None →
     ∃ w', set key v w = (Raise UnauthorizedOperationException, w') ∧
           storage (self w') = storage (self w) ∧
           last (trace w') = Some (EvGetById value__hash None)) ∧
  (∀ result, is_Some before.1 → merge_result dkey v (nm_data resp) = Ok result →
     after.1 = None →
     ∃ w', set key v w = (Raise UnauthorizedOperationException, w') ∧
           storage (self w') = storage (self w) ∧
           last (trace w') = Some (EvGetById value__hash None)).
Proof.
  intros Hvalid Hget. simpl.
  destruct (get_outside_only key w) as (resp' & w1' & Hget' & Hself & _).
  rewrite Hget in Hget'. inversion Hget'; subst resp' w1'.
  rewrite (set_valid _ _ _ Hvalid). split.
  - intros Habsent. eexists. split; [|split].
    + apply bind_Raise. rewrite (_persist_locally_run _ _ _ _ _ Hget). simpl.
      rewrite Habsent. reflexivity.
    + simpl. by rewrite Hself.
    + simpl. by rewrite last_snoc.
  - intros result [record Hrecord] Hmerge Habsent. eexists. split; [|split].
    + apply bind_Raise. rewrite (_persist_locally_run _ _ _ _ _ Hget). simpl.
      rewrite Hrecord, Hmerge, Habsent. reflexivity.
    + simpl. by rewrite Hself.
    + simpl. by rewrite last_snoc.
Qed.

(** C10: whenever [set] raises, whatever the check that refused the value,
    the local store is the one [set] started with. *)
Theorem set_raise_leaves_storage key v w e w' :
  set key v w = (Raise e, w') → storage (self w') = storage (self w).
Proof.
  unfold set. destruct (is_valid v); simpl.
  2: { unfold raise. by intros [= _ <-]. }
  destruct (get_outside_only key w) as (resp & w1 & Hget & Hself & _).
  unfold bind at 1. rewrite (_persist_locally_run _ _ _ _ _ Hget). simpl.
  destruct (get_by_id (env w1) _) as [[record|] e1]; simpl.
  2: { intros [= _ <-]. simpl. by rewrite Hself. }
  destruct (merge_result _ _ _) as [result|e0]; simpl.
  2: { intros [= _ <-]. simpl. by rewrite Hself. }
  destruct (get_by_id e1 _) as [[record'|] e2]; simpl.
  2: { intros [= _ <-]. simpl. by rewrite Hself. }
  match goal with |- context [_call_remote_persist ?k ?s ?w0] =>
    destruct (_call_remote_persist_run k s w0) as (b & w'' & evs & -> & _) end.
  done.
Qed.

(** The run of [_persist_locally] that passes every check. *)
Lemma _persist_locally_accepts key v w resp w1 result :
  get key w = (Ok resp, w1) →
  let dkey := digest key in
  let value__hash := hex (digest256 (hex dkey +:+ sign (authorization v))) in
  let before := get_by_id (env w1) value__hash in
  let after := get_by_id before.2 value__hash in
  is_Some before.1 →
  merge_result dkey v (nm_data resp) = Ok result →
  is_Some after.1 →
  ∃ w', _persist_locally key v w = (Ok (), w') ∧
        storage (self w') =
          Storage.set (monotonic after.2) (storage (self w)) dkey (value_str result) ∧
        trace w' = trace w1 ++ [EvGetById value__hash before.1; EvGetById value__hash after.1].
Proof.
  intros Hget. simpl. intros [r1 Hr1] Hmerge [r2 Hr2].
  destruct (get_outside_only key w) as (resp' & w1' & Hget' & Hself & _).
  rewrite Hget in Hget'. inversion Hget'; subst resp' w1'.
  rewrite (_persist_locally_run _ _ _ _ _ Hget). simpl. rewrite Hr1, Hmerge, Hr2.
  eexists. split_and!; [done| |]; simpl.
  - by rewrite Hself.
  - by rewrite <- app_assoc.
Qed.

(** The run of [_persist_locally] in which the merge raises. *)
Lemma _persist_locally_refuses key v w resp w1 e :
  get key w = (Ok resp, w1) →
  is_Some (get_by_id (env w1)
             (hex (digest256 (hex (digest key) +:+ sign (authorization v))))).1 →
  merge_result (digest key) v (nm_data resp) = Raise e →
  ∃ w', _persist_locally key v w = (Raise e, w') ∧ storage (self w') = storage (self w).
Proof.
  intros Hget [r1 Hr1] Hmerge.
  destruct (get_outside_only key w) as (resp' & w1' & Hget' & Hself & _).
  rewrite Hget in Hget'. inversion Hget'; subst resp' w1'.
  rewrite (_persist_locally_run _ _ _ _ _ Hget). simpl. rewrite Hr1, Hmerge.
  eexists. split; [done|]. simpl. by rewrite Hself.
Qed.

(** C2, amended: the value [_persist_locally] merges with is the one that
    [get] resolved, not the entry of the local store.  After the first oracle
    check has passed: when that value parses to a [ControlledValue], the new
    value is appended behind all the values it held; when it parses to a
    single [Value], the new value is validated against it, takes its place
    when [validate_secure_value] accepts, and is refused, with the exception
    of [validate_secure_value] and the store as it was, when it does not; a
    resolved value that does not parse is refused in the same way; when [get]
    resolved no value, the result is [create_from_value] of the new value.
    The serialization of the result is what the store holds under the key's
    digest once the second oracle check has passed. *)
Theorem persist_locally_conflict_rule key v w resp w1 :
  get key w = (Ok resp, w1) →
  let dkey := digest key in
  let value__hash := hex (digest256 (hex dkey +:+ sign (authorization v))) in
  let before := get_by_id (env w1) value__hash in
  let after := get_by_id before.2 value__hash in
  is_Some before.1 →
  let stores (s : string) :=
    is_Some after.1 →
    ∃ w', _persist_locally key v w = (Ok (), w') ∧
          storage (self w') =
            Storage.set (monotonic after.2) (storage (self w)) dkey s in
  let refuses (e : exn) :=
    ∃ w', _persist_locally key v w = (Raise e, w') ∧
          storage (self w') = storage (self w) in
  (∀ d vs, nm_data resp = Some d → str_truthy d = true →
     create_from_string dkey d = Ok (Controlled vs) →
     stores (value_str (Controlled (add_value vs v))) ∧
     (∀ x, x ∈ vs → x ∈ add_value vs v) ∧ v ∈ add_value vs v) ∧
  (∀ d stored_value, nm_data resp = Some d → str_truthy d = true →
     create_from_string dkey d = Ok (Single stored_value) →
     (validate_secure_value dkey v stored_value = Ok () →
        stores (value_str (Single v))) ∧
     (∀ e, validate_secure_value dkey v stored_value = Raise e → refuses e)) ∧
  (∀ d e, nm_data resp = Some d → str_truthy d = true →
     create_from_string dkey d = Raise e → refuses e) ∧
  (opt_truthy (nm_data resp) = false →
     stores (value_str (create_from_value v))).
Proof.
  intros Hget. simpl. intros Hbefore.
  assert (∀ result, merge_result (digest key) v (nm_data resp) = Ok result →
    is_Some (get_by_id (get_by_id (env w1)
               (hex (digest256 (hex (digest key) +:+ sign (authorization v))))).2
               (hex (digest256 (hex (digest key) +:+ sign (authorization v))))).1 →
    ∃ w', _persist_locally key v w = (Ok (), w') ∧
          storage (self w') =
            Storage.set
              (monotonic (get_by_id (get_by_id (env w1)
                 (hex (digest256 (hex (digest key) +:+ sign (authorization v))))).2
                 (hex (digest256 (hex (digest key) +:+ sign (authorization v))))).2)
              (storage (self w)) (digest key) (value_str result)) as Hstore.
  { intros result Hmerge Hafter.
    destruct (_persist_locally_accepts key v w resp w1 result Hget Hbefore Hmerge Hafter)
      as (w' & Hrun & Hst & _).
    by exists w'. }
  pose proof (_persist_locally_refuses key v w resp w1) as Hrefuse.
  split_and!.
  - intros d vs Hd Ht Hparse. split; [|unfold add_value; set_solver].
    apply Hstore. unfold merge_result. by rewrite Hd, Ht, Hparse.
  - intros d stored_value Hd Ht Hparse. split.
    + intros Hvalidate. apply Hstore. unfold merge_result.
      by rewrite Hd, Ht, Hparse, Hvalidate.
    + intros e Hvalidate. apply Hrefuse; [done..|]. unfold merge_result.
      by rewrite Hd, Ht, Hparse, Hvalidate.
  - intros d e Hd Ht Hparse. apply Hrefuse; [done..|]. unfold merge_result.
    by rewrite Hd, Ht, Hparse.
  - intros Hnone. apply Hstore. unfold merge_result.
    destruct (nm_data resp) as [d|]; [|done]. simpl in Hnone. by rewrite Hnone.
Qed.

(** C4: for a valid value that passes both oracle checks and the merge,
    [set] returns a boolean.  The propagation starts from the neighbours the
    routing table names after the local write: when there is none, nothing is
    sent and the boolean is [False]; otherwise one node crawl runs toward the
    key's digest, [callStore] is called once on every node the crawl found,
    with the key's digest and [str(new_value)], and the boolean is [True]
    exactly when one of these nodes answered its call with success. *)
Theorem set_true_iff_some_peer_accepted key v w resp w1 result :
  is_valid v = true →
  get key w = (Ok resp, w1) →
  let dkey := digest key in
  let value__hash := hex (digest256 (hex dkey +:+ sign (authorization v))) in
  let before := get_by_id (env w1) value__hash in
  let after := get_by_id before.2 value__hash in
  is_Some before.1 →
  merge_result dkey v (nm_data resp) = Ok result →
  is_Some after.1 →
  let target := mkNode dkey None None in
  let value := value_str (Single v) in
  let nearest := findNeighbors after.2 target None in
  let crawl := find_nodes after.2 target nearest (ksize (self w)) (alpha (self w)) in
  let answers := store_all crawl.2 crawl.1 dkey value in
  let checks := [EvGetById value__hash before.1; EvGetById value__hash after.1] in
  ∃ b w',
    set key v w = (Ok b, w') ∧
    (b = true ↔
       nearest ≠ [] ∧
       ∃ i peer, crawl.1 !! i = Some peer ∧ answers.1 !! i = Some true) ∧
    (nearest = [] →
       b = false ∧ env w' = after.2 ∧
       trace w' = trace w1 ++ checks ++ [EvRemotePersist key value]) ∧
    (nearest ≠ [] →
       env w' = answers.2 ∧
       trace w' = trace w1 ++ checks ++
         EvRemotePersist key value :: EvNodeCrawl target nearest
           :: zip_with (λ n ok, EvCallStore n dkey value ok) crawl.1 answers.1).
Proof.
  intros Hvalid Hget. simpl. intros [r1 Hr1] Hmerge [r2 Hr2].
  destruct (get_outside_only key w) as (resp' & w1' & Hget' & Hself & _).
  rewrite Hget in Hget'. inversion Hget'; subst resp' w1'.
  rewrite (set_valid _ _ _ Hvalid). unfold bind at 1.
  rewrite (_persist_locally_run _ _ _ _ _ Hget). simpl. rewrite Hr1, Hmerge, Hr2.
  rewrite _call_remote_persist_answers. simpl. rewrite Hself.
  destruct (findNeighbors _ _ _) as [|n nearest] eqn:Hn.
  - eexists _, _. split_and!; [done| |by rewrite <- !app_assoc|done].
    split; [done|]. by intros [? _].
  - eexists _, _. split_and!; [done| |done|by rewrite <- !app_assoc].
    rewrite any_lookup. split.
    + intros [i Hi]. split; [done|]. exists i.
      pose proof (lookup_lt_Some _ _ _ Hi) as Hlt. rewrite store_all_length in Hlt.
      apply lookup_lt_is_Some_2 in Hlt as [peer Hpeer].
      by exists peer.
    + intros [_ (i & peer & _ & Hi)]. by exists i.
Qed.

(** C6: the local write and the propagation are not one transaction.  For a
    valid value that passes both oracle checks and the merge, [set] returns a
    boolean and the local store holds the merged value under the key's
    digest, whatever the peers did; when every store call of the run failed,
    the boolean is [False] and the local store holds the merged value all
    the same. *)
Theorem set_keeps_local_write_when_stores_fail key v w resp w1 result :
  is_valid v = true →
  get key w = (Ok resp, w1) →
  let dkey := digest key in
  let value__hash := hex (digest256 (hex dkey +:+ sign (authorization v))) in
  let before := get_by_id (env w1) value__hash in
  let after := get_by_id before.2 value__hash in
  is_Some before.1 →
  merge_result dkey v (nm_data resp) = Ok result →
  is_Some after.1 →
  ∃ b w',
    set key v w = (Ok b, w') ∧
    storage (self w') =
      Storage.set (monotonic after.2) (storage (self w)) dkey (value_str result) ∧
    ((0 <= Storage.ttl (storage (self w)))%Z →
       Storage.get (monotonic after.2) (storage (self w')) dkey = Some (value_str result)) ∧
    ((∀ peer d s ok, EvCallStore peer d s ok ∈ new_events w w' → ok = false) →
       b = false).
Proof.
  intros Hvalid Hget. simpl. intros Hbefore Hmerge Hafter.
  destruct (get_outside_only key w) as (resp' & w1' & Hget' & _ & _ & evs0 & Ht0).
  rewrite Hget in Hget'. inversion Hget'; subst resp' w1'.
  destruct (_persist_locally_accepts key v w resp w1 result Hget Hbefore Hmerge Hafter)
    as (wp & Hpersist & Hst & Htp).
  rewrite (set_valid _ _ _ Hvalid), (bind_Ok _ _ _ _ _ Hpersist).
  destruct (_call_remote_persist_run key (value_str (Single v)) wp)
    as (b & w' & evs & Hrun & Hs & _ & Ht & _ & Hb & _).
  exists b, w'. rewrite Hs. split_and!; [done|done| |].
  - intros Httl. rewrite Hst. by apply storage_get_set.
  - intros Hfail. destruct b; [|done]. destruct Hb as [[peer Hp] _]; [done|].
    apply (Hfail peer (digest key) (value_str (Single v))).
    rewrite Htp, Ht0, <- !app_assoc in Ht. rewrite (new_events_app _ _ _ Ht).
    set_solver.
Qed.

(** ** The periodic refresh *)

Lemma republish_values_run dkey vals w :
  ∃ w',
    for_each vals (λ val, let* _ := _call_remote_persist (KBytes dkey) val in ret ()) w
      = (Ok (), w') ∧
    self w' = self w ∧ files w' = files w ∧
    ∃ evs, trace w' = trace w ++ evs ∧
           republish_calls evs = (λ val, (KBytes dkey, val)) <$> vals.
Proof.
  revert w. induction vals as [|val vals IH]; intros w.
  - exists w. split_and!; [done..|]. exists []. by rewrite app_nil_r.
  - cbn [for_each].
    destruct (_call_remote_persist_run (KBytes dkey) val w)
      as (b & w1 & evs1 & Hrun & Hs1 & Hf1 & Ht1 & Hc1 & _).
    erewrite bind_Ok by (erewrite bind_Ok by apply Hrun; reflexivity).
    destruct (IH w1) as (w' & Hloop & Hs & Hf & evs & Ht & Hc).
    exists w'. split_and!; [done|congruence..|].
    exists ((EvRemotePersist (KBytes dkey) val :: evs1) ++ evs). split.
    + by rewrite Ht, Ht1, app_assoc.
    + rewrite republish_calls_app. simpl. by rewrite Hc1, Hc.
Qed.

(** What the republish loop sends out for one stored entry. *)
Lemma republish_items_run (items : list (bytes * string)) w :
  (∀ dkey value, (dkey, value) ∈ items → is_Some (json_loads value)) →
  ∃ w',
    for_each items (λ '(dkey, value),
      let* parsed_val := lift (match json_loads value with
                               | Some j => Ok j
                               | None => Raise JSONDecodeError
                               end) in
      for_each (values_to_republish value parsed_val) (λ val,
        let* _ := _call_remote_persist (KBytes dkey) val in ret ())) w = (Ok (), w') ∧
    self w' = self w ∧ files w' = files w ∧
    ∃ evs, trace w' = trace w ++ evs ∧
           republish_calls evs =
             items ≫= λ '(dkey, value),
               match json_loads value with
               | Some (JArray vals) => (λ val, (KBytes dkey, json_dumps val)) <$> vals
               | _ => [(KBytes dkey, value)]
               end.
Proof.
  revert w. induction items as [|[dkey value] items IH]; intros w Hjson.
  - exists w. split_and!; [done..|]. exists []. by rewrite app_nil_r.
  - cbn [for_each].
    destruct (Hjson dkey value) as [parsed Hparsed]; [set_solver|].
    destruct (republish_values_run dkey (values_to_republish value parsed) w)
      as (w1 & Hvals & Hs1 & Hf1 & evs1 & Ht1 & Hc1).
    erewrite bind_Ok; last first.
    { erewrite bind_Ok by (unfold lift; rewrite Hparsed; reflexivity). apply Hvals. }
    destruct (IH w1) as (w' & Hloop & Hs & Hf & evs & Ht & Hc).
    { intros d0 v0 Hin. apply (Hjson d0 v0). set_solver. }
    exists w'. split_and!; [done|congruence..|].
    exists (evs1 ++ evs). split; [by rewrite Ht, Ht1, app_assoc|].
    rewrite republish_calls_app, Hc1, Hc. cbn [mbind list_bind]. f_equal.
    rewrite Hparsed. unfold values_to_republish.
    destruct parsed; try done. by rewrite <- list_fmap_compose.
Qed.

(** When every stored entry older than 3600 seconds holds a JSON document,
    the refresh goes through and calls
    [_call_remote_persist] for the old entries in store order: for an entry
    holding a JSON list, once per element with the element serialized again,
    and otherwise exactly once with the stored value as it is. *)
Theorem refresh_republishes_old_entries w w1 :
  refresh_table_crawl w = (Ok (), w1) →
  let items := Storage.iteritemsOlderThan (monotonic (env w1)) (storage (self w1)) 3600 in
  (∀ dkey value, (dkey, value) ∈ items → is_Some (json_loads value)) →
  ∃ w',
    _refresh_table w = (Ok (), w') ∧
    republish_calls (new_events w1 w') =
      items ≫= λ '(dkey, value),
        match json_loads value with
        | Some (JArray vals) => (λ val, (KBytes dkey, json_dumps val)) <$> vals
        | _ => [(KBytes dkey, value)]
        end.
Proof.
  intros Hcrawl. simpl. intros Hjson.
  unfold _refresh_table. rewrite (bind_Ok _ _ _ _ _ Hcrawl).
  unfold refresh_table_republish.
  erewrite bind_Ok by (unfold storage_iteritemsOlderThan, bind, env_read, self_read, ret;
                       simpl; reflexivity).
  destruct (republish_items_run _ w1 Hjson) as (w' & Hrun & _ & _ & evs & Ht & Hc).
  exists w'. split; [done|]. by rewrite (new_events_app _ _ _ Ht).
Qed.

(** The crawl half of the refresh never raises and sends nothing to
    [_call_remote_persist]. *)
Lemma refresh_table_crawl_run w :
  ∃ w1, refresh_table_crawl w = (Ok (), w1) ∧ self w1 = self w ∧ files w1 = files w ∧
        ∃ evs, trace w1 = trace w ++ evs ∧ republish_calls evs = [].
Proof.
  unfold refresh_table_crawl.
  erewrite bind_Ok by (unfold env_read; reflexivity).
  erewrite bind_Ok by (unfold self_read; reflexivity).
  erewrite bind_Ok by (unfold env_read; reflexivity). simpl.
  generalize ((λ id, (mkNode id None None,
                      findNeighbors (env w) (mkNode id None None) (Some (alpha (self w)))))
                <$> getRefreshIDs (env w)).
  intros targets.
  assert (∀ w0, ∃ rs w1,
    gather ((λ tn : Node * list Node, NodeSpiderCrawl_find tn.1 tn.2) <$> targets) w0
      = (Ok rs, w1) ∧ self w1 = self w0 ∧ files w1 = files w0 ∧
    ∃ evs, trace w1 = trace w0 ++ evs ∧ republish_calls evs = []) as Hgather.
  { induction targets as [|[t n] targets IH]; intros w0.
    - exists [], w0. split_and!; [done..|]. exists []. by rewrite app_nil_r.
    - rewrite fmap_cons. cbn [gather].
      erewrite bind_Ok by apply NodeSpiderCrawl_find_run. simpl.
      match goal with |- context [mkWorld ?a ?b ?c ?d] =>
        destruct (IH (mkWorld a b c d)) as (rs & w1 & Hg & Hs & Hf & evs & Ht & Hc) end.
      erewrite bind_Ok by apply Hg. unfold ret.
      eexists _, w1. split_and!; [done..|].
      exists (EvNodeCrawl t n :: evs). split; [|done].
      rewrite Ht. simpl. by rewrite <- app_assoc. }
  destruct (Hgather w) as (rs & w1 & Hg & Hs & Hf & evs & Ht & Hc).
  erewrite bind_Ok by apply Hg. unfold ret.
  exists w1. split_and!; [done..|]. by exists evs.
Qed.

(** The republish loop hands the stored digest to [_call_remote_persist], which
    digests its key once more: the store calls of a republished entry carry
    the digest of the entry's digest. *)
Remark republish_store_key dkey value w b w' :
  _call_remote_persist (KBytes dkey) value w = (Ok b, w') →
  ∀ peer d s ok, EvCallStore peer d s ok ∈ new_events w w' → d = digest (KBytes dkey).
Proof.
  intros Hrun peer d s ok Hin.
  destruct (_call_remote_persist_run (KBytes dkey) value w)
    as (b0 & w0 & evs & Hrun0 & _ & _ & Ht & _ & _ & _ & Hkey).
  rewrite Hrun in Hrun0. inversion Hrun0; subst b0 w0.
  rewrite (new_events_app _ _ _ Ht) in Hin.
  apply elem_of_cons in Hin as [Hin|Hin]; [done|].
  by destruct (Hkey _ _ _ _ Hin).
Qed.

(** ** State snapshots *)

Lemma bootstrappableNeighbors_run w :
  bootstrappableNeighbors w =
    (Ok ((λ n, (node_ip n, node_port n)) <$> findNeighbors (env w) (node (self w)) None), w).
Proof. done. Qed.




(** C9, where the code departs from it: [loadState] restores [ksize],
    [alpha] and the node identifier of the snapshot, but the world is left as
    it was, neighbours saved or not: no ping and no crawl goes out, the
    coroutine of [bootstrap] is built and dropped. *)
Theorem loadState_never_bootstraps fname w data :
  files w !! fname = Some data →
  snap_id data ≠ [] →
  loadState fname w =
    (Ok (mkServer (snap_ksize data) (snap_alpha data) Storage.empty
           (mkNode (snap_id data) None None)), w).
Proof.
  intros Hfile Hid. unfold loadState.
  erewrite bind_Ok by (rewrite Hfile; reflexivity).
  unfold Server_init. destruct (snap_id data) as [|b rest]; [done|].
  erewrite bind_Ok by reflexivity. done.
Qed.

End ServerFacts.

(** * Further properties of the server *)

Section ServerMore.

Context {Env : Type} `{!Environment Env} `{!Utils} `{!Domain} `{!Json}.

Implicit Types (w : World Env) (key : pykey) (v : Value).

(** ** get *)

(** X1: [get] never raises; its answer is keyed by the key's digest; it
    leaves the server object and the files alone, and what it sends is either
    nothing (the environment is then untouched) or a single value crawl
    toward the key's digest. *)
Theorem get_answers_without_side_effects key w :
  ∃ resp w',
    get key w = (Ok resp, w') ∧
    nm_key resp = digest key ∧
    self w' = self w ∧ files w' = files w ∧
    (new_events w w' = [] ∧ env w' = env w ∨
     ∃ nearest seed,
       new_events w w' = [EvValueCrawl (mkNode (digest key) None None) nearest seed]).
Proof.
  rewrite get_run. simpl. destruct (findNeighbors _ _ _) as [|n nearest].
  - eexists _, w. split_and!; [done..|]. left.
    split; [|done]. unfold new_events. by rewrite drop_all.
  - eexists _, _. split_and!; [done..|]. right. eexists _, _.
    by apply new_events_app.
Qed.

(** X2: with a known neighbour and no local copy, or an empty one, [get]
    runs its value crawl without seed and resolves the answer from the
    gathered responses alone. *)
Theorem get_unseeded_without_local_copy key w :
  findNeighbors (env w) (mkNode (digest key) None None) None ≠ [] →
  opt_truthy (Storage.get (monotonic (env w)) (storage (self w)) (digest key)) = false →
  let dkey := digest key in
  let target := mkNode dkey None None in
  let nearest := findNeighbors (env w) target None in
  let responses :=
    (find_value_gather (env w) target nearest (ksize (self w)) (alpha (self w))).1 in
  ∃ w',
    get key w = (Ok (of_params dkey (select_most_common_response dkey responses)), w') ∧
    new_events w w' = [EvValueCrawl target nearest []].
Proof.
  intros Hn Hlocal. simpl. rewrite get_run. simpl.
  destruct (findNeighbors _ _ _) as [|n nearest]; [done|].
  assert (local_seed (digest key)
            (Storage.get (monotonic (env w)) (storage (self w)) (digest key)) = []) as ->.
  { destruct (Storage.get _ _ _) as [lv|]; [|done]. simpl in *. by rewrite Hlocal. }
  eexists. split; [done|]. by apply new_events_app.
Qed.

(** ** _call_remote_persist *)

(** X3: [_call_remote_persist] never raises and leaves the server object and
    the files alone.  Without a known neighbour it sends nothing and answers
    [False]; otherwise it crawls toward the key's digest and calls store once
    on each node the crawl found, in order, with the key's digest and the
    value, and answers whether some call was accepted (so [False] when the
    crawl found no node). *)
Theorem call_remote_persist_fans_out key value w :
  let dkey := digest key in
  let target := mkNode dkey None None in
  let nearest := findNeighbors (env w) target None in
  let nodes := (find_nodes (env w) target nearest (ksize (self w)) (alpha (self w))).1 in
  ∃ results w',
    _call_remote_persist key value w = (Ok (any results), w') ∧
    self w' = self w ∧ files w' = files w ∧
    new_events w w' =
      EvRemotePersist key value ::
        match nearest with
        | [] => []
        | _ :: _ =>
            EvNodeCrawl target nearest
              :: zip_with (λ n ok, EvCallStore n dkey value ok) nodes results
        end ∧
    match nearest with
    | [] => results = []
    | _ :: _ => length results = length nodes
    end.
Proof.
  simpl. unfold _call_remote_persist.
  erewrite bind_Ok by (unfold log; reflexivity).
  erewrite bind_Ok by (unfold env_read; reflexivity). simpl.
  destruct (findNeighbors _ _ _) as [|n nearest] eqn:Hn; simpl.
  - exists [], (mkWorld (self w) (env w) (files w) (trace w ++ [EvRemotePersist key value])).
    split_and!; try done. by apply new_events_app.
  - erewrite bind_Ok by apply NodeSpiderCrawl_find_run. simpl.
    match goal with |- context [mkWorld ?a ?b ?c ?d] =>
      destruct (gather_callStore
                  (find_nodes (env w) (mkNode (digest key) None None) (n :: nearest)
                     (ksize (self w)) (alpha (self w))).1
                  (digest key) value (mkWorld a b c d))
        as (results & w' & Hg & Hs & Hf & Ht & Hl) end.
    erewrite bind_Ok by apply Hg. unfold ret. simpl in *.
    exists results, w'. split_and!; try done.
    apply new_events_app. rewrite Ht, <- !app_assoc. done.
Qed.


(** What [_call_remote_persist] sends after its own entry in the trace. *)
Lemma _call_remote_persist_events key value w :
  ∃ b w' evs,
    _call_remote_persist key value w = (Ok b, w') ∧
    self w' = self w ∧ files w' = files w ∧
    trace w' = trace w ++ EvRemotePersist key value :: evs ∧
    Forall (λ ev, match ev with
                  | EvNodeCrawl target _ => target = mkNode (digest key) None None
                  | EvCallStore _ d s _ => d = digest key ∧ s = value
                  | _ => False
                  end) evs.
Proof.
  destruct (_call_remote_persist_run key value w)
    as (b & w' & evs & Hrun & Hs & Hf & Ht & _ & _ & _ & Hstore).
  exists b, w', evs. split_and!; [done..|].
  revert Hrun Ht. unfold _call_remote_persist.
  erewrite bind_Ok by (unfold log; reflexivity).
  erewrite bind_Ok by (unfold env_read; reflexivity). simpl.
  destruct (findNeighbors _ _ _) as [|n nearest] eqn:Hn; simpl.
  - unfold ret. intros [= <- <-]. simpl. intros Ht.
    apply app_inv_head in Ht. destruct evs; [constructor|done].
  - erewrite bind_Ok by apply NodeSpiderCrawl_find_run. simpl.
    match goal with |- context [mkWorld ?a ?b ?c ?d] =>
      destruct (gather_callStore
                  (find_nodes (env w) (mkNode (digest key) None None) (n :: nearest)
                     (ksize (self w)) (alpha (self w))).1
                  (digest key) value (mkWorld a b c d))
        as (results & w0 & Hg & _ & _ & Ht0 & _) end.
    erewrite bind_Ok by apply Hg. unfold ret. intros [= <- <-]. intros Ht.
    rewrite Ht0 in Ht. simpl in Ht. rewrite <- !app_assoc in Ht.
    apply app_inv_head in Ht. simpl in Ht. injection Ht as <-.
    constructor; [done|].
    apply Forall_forall. intros ev Hev.
    apply list_elem_of_lookup in Hev as [i Hi].
    apply lookup_zip_with_Some in Hi as (m & ok & -> & _ & _). done.
Qed.

(** ** set *)

(** [set] in one step, from the answer of [get]. *)
Lemma set_run key v w resp w1 :
  get key w = (Ok resp, w1) →
  set key v w =
    let dkey := digest key in
    let value__hash := hex (digest256 (hex dkey +:+ sign (authorization v))) in
    let c1 := get_by_id (env w1) value__hash in
    let w2 := mkWorld (self w1) c1.2 (files w1) (trace w1 ++ [EvGetById value__hash c1.1]) in
    if is_valid v then
      match c1.1 with
      | None => (Raise UnauthorizedOperationException, w2)
      | Some _ =>
          match merge_result dkey v (nm_data resp) with
          | Raise e => (Raise e, w2)
          | Ok result =>
              let c2 := get_by_id c1.2 value__hash in
              let w3 := mkWorld (self w1) c2.2 (files w1)
                          (trace w2 ++ [EvGetById value__hash c2.1]) in
              match c2.1 with
              | None => (Raise UnauthorizedOperationException, w3)
              | Some _ =>
                  _call_remote_persist key (value_str (Single v))
                    (mkWorld (mkServer (ksize (self w1)) (alpha (self w1))
                                (Storage.set (monotonic c2.2) (storage (self w1)) dkey
                                   (value_str result))
                                (node (self w1)))
                       c2.2 (files w1) (trace w3))
              end
          end
      end
    else (Raise UnauthorizedOperationException, w).
Proof.
  intros Hget. unfold set. destruct (is_valid v); [|done]. simpl.
  unfold bind at 1. rewrite (_persist_locally_run _ _ _ _ _ Hget). simpl.
  destruct (get_by_id (env w1) _) as [[r1|] e1]; [|done]. simpl.
  destruct (merge_result _ _ _) as [result|e]; [|done]. simpl.
  by destruct (get_by_id e1 _) as [[r2|] e2].
Qed.

(** X4: [set] returns, rather than raises, exactly when the value is valid,
    the oracle has a record at the check before the merge, the merge with
    the value that [get] resolved goes through, and the oracle has a record
    at the check after it. *)
Theorem set_returns_iff_every_check_passes key v w resp w1 :
  get key w = (Ok resp, w1) →
  let dkey := digest key in
  let value__hash := hex (digest256 (hex dkey +:+ sign (authorization v))) in
  let before := get_by_id (env w1) value__hash in
  let after := get_by_id before.2 value__hash in
  (∃ b w', set key v w = (Ok b, w')) ↔
    is_valid v = true ∧ is_Some before.1 ∧
    (∃ result, merge_result dkey v (nm_data resp) = Ok result) ∧ is_Some after.1.
Proof.
  intros Hget. simpl. rewrite (set_run _ _ _ _ _ Hget). simpl.
  destruct (is_valid v).
  2: { split; [by intros (? & ? & ?)|by intros [? _]]. }
  destruct (get_by_id (env w1) _) as [[r1|] e1]; simpl.
  2: { split; [by intros (? & ? & ?)|]. by intros (_ & [? ?] & _). }
  destruct (merge_result _ _ _) as [result|e]; simpl.
  2: { split; [by intros (? & ? & ?)|]. by intros (_ & _ & [? ?] & _). }
  destruct (get_by_id e1 _) as [[r2|] e2]; simpl.
  2: { split; [by intros (? & ? & ?)|]. by intros (_ & _ & _ & [? ?]). }
  split; [by eauto 10|]. intros _.
  match goal with |- context [_call_remote_persist ?k ?s ?w0] =>
    destruct (_call_remote_persist_run k s w0) as (b & w' & _ & Hrun & _) end.
  by exists b, w'.
Qed.

(** X5: when [set] raises, the exception is [UnauthorizedOperationException]
    or the one the merge raised (from [create_from_string] or
    [validate_secure_value]), and nothing went to a peer: the run has no call
    of [_call_remote_persist], no node crawl and no store call. *)
Theorem set_raises_before_propagating key v w resp w1 e w' :
  get key w = (Ok resp, w1) →
  set key v w = (Raise e, w') →
  (e = UnauthorizedOperationException ∨
   merge_result (digest key) v (nm_data resp) = Raise e) ∧
  Forall (λ ev, match ev with
                | EvValueCrawl _ _ _ | EvGetById _ _ => True
                | _ => False
                end) (new_events w w').
Proof.
  intros Hget. rewrite (set_run _ _ _ _ _ Hget). simpl.
  destruct (get_outside_only key w) as (resp' & w1' & Hget' & _).
  rewrite Hget in Hget'. inversion Hget'; subst resp' w1'. clear Hget'.
  assert (∃ evs0, trace w1 = trace w ++ evs0 ∧
            Forall (λ ev, match ev with
                          | EvValueCrawl _ _ _ | EvGetById _ _ => True
                          | _ => False
                          end) evs0) as (evs0 & Ht0 & Hevs0).
  { revert Hget. rewrite get_run. simpl. destruct (findNeighbors _ _ _).
    - intros [= _ <-]. exists []. split; [by rewrite app_nil_r|constructor].
    - intros [= _ <-]. eexists. split; [done|]. by repeat constructor. }
  destruct (is_valid v).
  2: { intros [= <- <-]. split; [by left|]. unfold new_events. by rewrite drop_all. }
  destruct (get_by_id (env w1) _) as [[r1|] e1]; simpl.
  2: { intros [= <- <-]. split; [by left|]. simpl.
       rewrite Ht0, <- app_assoc. erewrite new_events_app by done.
       apply Forall_app. split; [done|by repeat constructor]. }
  destruct (merge_result _ _ _) as [result|e0]; simpl.
  2: { intros [= <- <-]. split; [by right|]. simpl.
       rewrite Ht0, <- app_assoc. erewrite new_events_app by done.
       apply Forall_app. split; [done|by repeat constructor]. }
  destruct (get_by_id e1 _) as [[r2|] e2]; simpl.
  2: { intros [= <- <-]. split; [by left|]. simpl.
       rewrite Ht0, <- !app_assoc. erewrite new_events_app by done.
       apply Forall_app. split; [done|by repeat constructor]. }
  match goal with |- context [_call_remote_persist ?k ?s ?w0] =>
    destruct (_call_remote_persist_run k s w0) as (b & w'' & _ & -> & _) end.
  done.
Qed.

(** X6: every event of a run of [set], successful or not, concerns the key
    and the value at hand: crawls go toward the key's digest, the oracle is
    asked under the one hash of that digest and the value's signature, at
    most twice, and what peers are asked to store under the key's digest is
    [str(new_value)], never the merged value that the local store received;
    no peer is pinged. *)
Theorem set_events_concern_key_and_value key v w r w' :
  set key v w = (r, w') →
  Forall (set_event key v) (new_events w w') ∧
  length (filter (λ ev, is_oracle_query ev = true) (new_events w w')) ≤ 2.
Proof.
  destruct (get_outside_only key w) as (resp & w1 & Hget & _).
  rewrite (set_run _ _ _ _ _ Hget). simpl.
  assert (∃ evs0, trace w1 = trace w ++ evs0 ∧ Forall (set_event key v) evs0 ∧
            filter (λ ev, is_oracle_query ev = true) evs0 = []) as (evs0 & Ht0 & Hevs0 & Hq0).
  { revert Hget. rewrite get_run. simpl. destruct (findNeighbors _ _ _).
    - intros [= _ <-]. exists []. split_and!; [by rewrite app_nil_r|constructor|done].
    - intros [= _ <-]. eexists. split_and!; [done| |done]. by repeat constructor. }
  destruct (is_valid v).
  2: { intros [= <- <-]. unfold new_events. rewrite drop_all. split; [constructor|simpl; lia]. }
  destruct (get_by_id (env w1) _) as [[r1|] e1]; simpl.
  2: { intros [= <- <-]. simpl.
       rewrite Ht0, <- app_assoc. erewrite new_events_app by done. split.
       - apply Forall_app. split; [done|by repeat constructor].
       - rewrite filter_app, Hq0. simpl. lia. }
  destruct (merge_result _ _ _) as [result|e0]; simpl.
  2: { intros [= <- <-]. simpl.
       rewrite Ht0, <- app_assoc. erewrite new_events_app by done. split.
       - apply Forall_app. split; [done|by repeat constructor].
       - rewrite filter_app, Hq0. simpl. lia. }
  destruct (get_by_id e1 _) as [[r2|] e2]; simpl.
  2: { intros [= <- <-]. simpl.
       rewrite Ht0, <- !app_assoc. erewrite new_events_app by done. split.
       - apply Forall_app. split; [done|by repeat constructor].
       - rewrite filter_app, Hq0. simpl. lia. }
  match goal with |- context [_call_remote_persist ?k ?s ?w0] =>
    destruct (_call_remote_persist_events k s w0)
      as (b & w'' & evs & -> & _ & _ & Ht & Hevs) end.
  intros [= <- <-]. simpl in Ht.
  rewrite Ht0, <- !app_assoc in Ht. rewrite (new_events_app _ _ _ Ht). split.
  - apply Forall_app. split; [done|].
    repeat (constructor; [done|]).
    eapply Forall_impl; [exact Hevs|]. intros [] ?; done.
  - assert (filter (λ ev, is_oracle_query ev = true) evs = []) as Hq.
    { clear -Hevs. induction Hevs as [|ev evs Hev _ IH]; [done|].
      rewrite filter_cons. destruct ev; simpl in *; done. }
    rewrite filter_app, Hq0, app_nil_l.
    rewrite (filter_app _ [_]), (filter_app _ [_]), (filter_cons _ (EvRemotePersist _ _)).
    simpl. rewrite Hq. simpl. lia.
Qed.


Lemma storage_get_set_later now later st k s :
  (later - now <= Storage.ttl st)%Z →
  Storage.get later (Storage.set now st k s) k = Some s.
Proof.
  intros Hlive. unfold Storage.get, Storage.set. simpl.
  assert (∀ l, Storage.find k (filter (λ e, e.1 ≠ k) l ++ [(k, (now, s))]) = Some (now, s))
    as ->.
  { induction l as [|[k' e] l IH]; simpl.
    - by rewrite decide_True.
    - rewrite filter_cons. simpl. destruct (decide (k' ≠ k)); [|done].
      simpl. by rewrite decide_False. }
  unfold Storage.live. simpl.
  by destruct (Z.leb_spec (later - now) (Storage.ttl st)); [|lia].
Qed.

(** X7: a node that knows no neighbour for the key cannot read its own write
    back.  For a valid value the oracle approves at both checks, [set]
    answers [False]; the local entry of the key is replaced by
    [create_from_value] of the new value, whatever it held (the merge never
    sees it, because [get] answers without data); and a [get] right after
    answers without data again. *)
Theorem lone_node_cannot_read_back key v w :
  is_valid v = true →
  let dkey := digest key in
  let target := mkNode dkey None None in
  let value__hash := hex (digest256 (hex dkey +:+ sign (authorization v))) in
  let before := get_by_id (env w) value__hash in
  let after := get_by_id before.2 value__hash in
  findNeighbors (env w) target None = [] →
  is_Some before.1 →
  is_Some after.1 →
  findNeighbors after.2 target None = [] →
  ∃ w',
    set key v w = (Ok false, w') ∧
    storage (self w') =
      Storage.set (monotonic after.2) (storage (self w)) dkey
        (value_str (create_from_value v)) ∧
    get key w' = (Ok (of_params dkey None), w').
Proof.
  intros Hvalid. simpl. intros Hn [r1 Hr1] [r2 Hr2] Hn'.
  assert (get key w = (Ok (of_params (digest key) None), w)) as Hget
    by (rewrite get_run; simpl; by rewrite Hn).
  rewrite (set_run _ _ _ _ _ Hget). simpl. rewrite Hvalid, Hr1, Hr2.
  match goal with |- context [_call_remote_persist ?k ?s ?w0] =>
    destruct (_call_remote_persist_run k s w0)
      as (b & w' & evs & Hrun & Hs & _ & _ & _ & _ & Hnone & _) end.
  simpl in Hnone. destruct (Hnone Hn') as (-> & _ & He).
  exists w'. split_and!; [done|by rewrite Hs|].
  rewrite get_run. simpl. by rewrite He, Hn'.
Qed.

(** X8: a node with a neighbour reads its own write.  After a [set] that
    passed every check, a [get] of the same key, made while the entry is live
    and a neighbour is known, seeds its value crawl with the merged value
    that [set] stored, and resolves the answer over that local message
    followed by the gathered responses. *)
Theorem set_then_get_seeds_stored_value key v w resp w1 result :
  is_valid v = true →
  get key w = (Ok resp, w1) →
  let dkey := digest key in
  let target := mkNode dkey None None in
  let value__hash := hex (digest256 (hex dkey +:+ sign (authorization v))) in
  let before := get_by_id (env w1) value__hash in
  let after := get_by_id before.2 value__hash in
  is_Some before.1 →
  merge_result dkey v (nm_data resp) = Ok result →
  is_Some after.1 →
  str_truthy (value_str result) = true →
  ∃ b w',
    set key v w = (Ok b, w') ∧
    (findNeighbors (env w') target None ≠ [] →
     (monotonic (env w') - monotonic after.2 <= Storage.ttl (storage (self w)))%Z →
     ∃ w'',
       let nearest := findNeighbors (env w') target None in
       let local_message := of_params dkey (Some (value_str result)) in
       let responses :=
         (find_value_gather (env w') target nearest (ksize (self w)) (alpha (self w))).1 in
       get key w' =
         (Ok (of_params dkey
                (select_most_common_response dkey (local_message :: responses))), w'') ∧
       new_events w' w'' = [EvValueCrawl target nearest [local_message]]).
Proof.
  intros Hvalid Hget. simpl. intros [r1 Hr1] Hmerge [r2 Hr2] Htruthy.
  destruct (get_outside_only key w) as (resp' & w1' & Hget' & Hself & _).
  rewrite Hget in Hget'. inversion Hget'; subst resp' w1'. clear Hget'.
  rewrite (set_run _ _ _ _ _ Hget). simpl. rewrite Hvalid, Hr1, Hmerge, Hr2.
  match goal with |- context [_call_remote_persist ?k ?s ?w0] =>
    destruct (_call_remote_persist_run k s w0)
      as (b & w' & evs & Hrun & Hs & _) end.
  exists b, w'. split; [done|]. intros Hn Hlive.
  rewrite get_run. simpl.
  destruct (findNeighbors (env w') _ _) as [|n nearest] eqn:Hnear; [done|].
  rewrite Hs. simpl. rewrite Hself.
  rewrite storage_get_set_later by done.
  unfold local_seed. rewrite Htruthy. simpl.
  eexists. split; [done|]. by apply new_events_app.
Qed.

(** ** The periodic refresh, continued *)

Lemma run_within_refl E w : run_within E w w.
Proof. split_and!; [done..|]. exists []. split; [by rewrite app_nil_r|constructor]. Qed.

Lemma run_within_trans E w1 w2 w3 :
  run_within E w1 w2 → run_within E w2 w3 → run_within E w1 w3.
Proof.
  intros (Hs & Hf & evs & Ht & He) (Hs' & Hf' & evs' & Ht' & He').
  split_and!; [congruence..|]. exists (evs ++ evs'). split.
  - by rewrite Ht', Ht, app_assoc.
  - by apply Forall_app.
Qed.

Lemma bind_within {A B} E (m : M Env A) (k : A → M Env B) w r w' :
  (∀ r0 w0, m w = (r0, w0) → run_within E w w0) →
  (∀ a w0 r1 w1, m w = (Ok a, w0) → k a w0 = (r1, w1) → run_within E w0 w1) →
  bind m k w = (r, w') → run_within E w w'.
Proof.
  intros Hm Hk. unfold bind. destruct (m w) as [[a|e] w0] eqn:Hmw.
  - intros Hrun. eapply run_within_trans; [by eapply Hm|by eapply Hk].
  - intros [= <- <-]. by eapply Hm.
Qed.

Lemma for_each_within {A} E (xs : list A) (body : A → M Env ()) :
  (∀ x w r w', x ∈ xs → body x w = (r, w') → run_within E w w') →
  ∀ w r w', for_each xs body w = (r, w') → run_within E w w'.
Proof.
  induction xs as [|x xs IH]; intros Hbody w r w'; simpl.
  - intros [= <- <-]. apply run_within_refl.
  - apply bind_within.
    + intros r0 w0. apply Hbody. set_solver.
    + intros _ w0 r1 w1 _. apply IH. intros y ?????. eapply Hbody; [|done]. set_solver.
Qed.

(** The crawl half of the refresh, event by event. *)
Lemma refresh_table_crawl_events w :
  ∃ w1,
    refresh_table_crawl w = (Ok (), w1) ∧
    self w1 = self w ∧ files w1 = files w ∧
    trace w1 = trace w ++
      ((λ id, EvNodeCrawl (mkNode id None None)
                (findNeighbors (env w) (mkNode id None None) (Some (alpha (self w)))))
         <$> getRefreshIDs (env w)).
Proof.
  unfold refresh_table_crawl.
  erewrite bind_Ok by (unfold env_read; reflexivity).
  erewrite bind_Ok by (unfold self_read; reflexivity).
  erewrite bind_Ok by (unfold env_read; reflexivity). simpl.
  assert (∀ ids w0, self w0 = self w → ∃ rs w1,
    gather ((λ tn : Node * list Node, NodeSpiderCrawl_find tn.1 tn.2) <$>
              ((λ id, (mkNode id None None,
                       findNeighbors (env w) (mkNode id None None)
                         (Some (alpha (self w))))) <$> ids))
      w0 = (Ok rs, w1) ∧ self w1 = self w0 ∧ files w1 = files w0 ∧
    trace w1 = trace w0 ++
      ((λ id, EvNodeCrawl (mkNode id None None)
                (findNeighbors (env w) (mkNode id None None)
                   (Some (alpha (self w))))) <$> ids))
    as Hgather.
  { induction ids as [|id ids IH]; intros w0 Hw0.
    - exists [], w0. split_and!; [done..|]. simpl. by rewrite app_nil_r.
    - rewrite !fmap_cons. cbn [gather].
      erewrite bind_Ok by apply NodeSpiderCrawl_find_run. simpl.
      match goal with |- context [mkWorld ?a ?b ?c ?d] =>
        destruct (IH (mkWorld a b c d)) as (rs & w1 & Hg & Hs & Hf & Ht); [done|] end.
      erewrite bind_Ok by apply Hg. unfold ret.
      eexists _, w1. split_and!; [done..|].
      rewrite Ht. simpl. by rewrite <- app_assoc. }
  destruct (Hgather (getRefreshIDs (env w)) w eq_refl) as (rs & w1 & Hg & Hs & Hf & Ht).
  erewrite bind_Ok by apply Hg. unfold ret.
  by exists w1.
Qed.


(** X9: the crawl half of the refresh never raises and runs one node crawl
    per identifier of [getRefreshIDs], in order, each toward that identifier
    and started from the [alpha] nearest neighbours that the routing table
    named before the first crawl ran. *)
Theorem refresh_crawls_every_refresh_id w :
  ∃ w1,
    refresh_table_crawl w = (Ok (), w1) ∧
    self w1 = self w ∧ files w1 = files w ∧
    new_events w w1 =
      (λ id, EvNodeCrawl (mkNode id None None)
               (findNeighbors (env w) (mkNode id None None) (Some (alpha (self w)))))
        <$> getRefreshIDs (env w).
Proof.
  destruct (refresh_table_crawl_events w) as (w1 & Hrun & Hs & Hf & Ht).
  exists w1. split_and!; [done..|]. by apply new_events_app.
Qed.

Lemma for_each_app {A} (xs ys : list A) (body : A → M Env ()) w :
  for_each (xs ++ ys) body w = bind (for_each xs body) (λ _, for_each ys body) w.
Proof.
  revert w. induction xs as [|x xs IH]; intros w; simpl; [reflexivity|].
  destruct (body x w) as [[[]|e] w0] eqn:Hb.
  - rewrite (bind_Ok _ _ _ _ _ Hb), IH. unfold bind. by rewrite Hb.
  - rewrite (bind_Raise _ _ _ _ _ Hb). unfold bind. by rewrite Hb.
Qed.

Lemma for_each_raises {A} (R : exn → Prop) (xs : list A) (body : A → M Env ()) :
  (∀ x w e w', body x w = (Raise e, w') → R e) →
  ∀ w e w', for_each xs body w = (Raise e, w') → R e.
Proof.
  intros Hbody. induction xs as [|x xs IH]; intros w e w'; simpl; [done|].
  unfold bind. destruct (body x w) as [[[]|e0] w0] eqn:Hb.
  - apply IH.
  - intros [= <- <-]. by eapply Hbody.
Qed.

Lemma republish_values_within E dkey vals w r w' :
  (∀ val, val ∈ vals → E (EvRemotePersist (KBytes dkey) val)) →
  (∀ target nearest, E (EvNodeCrawl target nearest)) →
  (∀ peer s ok, E (EvCallStore peer (digest (KBytes dkey)) s ok)) →
  for_each vals (λ val, let* _ := _call_remote_persist (KBytes dkey) val in ret ()) w
    = (r, w') →
  run_within E w w' ∧ r = Ok ().
Proof.
  intros Hrp Hcrawl Hstore. revert w.
  induction vals as [|val vals IH]; intros w; simpl.
  - intros [= <- <-]. split; [apply run_within_refl|done].
  - destruct (_call_remote_persist_events (KBytes dkey) val w)
      as (b & w0 & evs & Hrun & Hs & Hf & Ht & Hevs).
    erewrite bind_Ok by (erewrite bind_Ok by apply Hrun; reflexivity).
    intros Hloop. destruct IH with (w := w0) as [Hw ->]; [set_solver|done|].
    split; [|done]. eapply run_within_trans; [|exact Hw].
    split_and!; [done..|]. eexists. split; [done|].
    constructor; [apply Hrp; set_solver|].
    eapply Forall_impl; [exact Hevs|].
    intros [] Hev; try done;
      first [apply Hcrawl | destruct Hev as [-> _]; apply Hstore].
Qed.

(** What the republish loop does over any list of entries. *)
Lemma republish_items_within (items : list (bytes * string)) w r w' :
  for_each items (λ '(dkey, value),
    let* parsed_val := lift (match json_loads value with
                             | Some j => Ok j
                             | None => Raise JSONDecodeError
                             end) in
    for_each (values_to_republish value parsed_val) (λ val,
      let* _ := _call_remote_persist (KBytes dkey) val in ret ())) w = (r, w') →
  run_within (refresh_event items) w w' ∧ (r = Ok () ∨ r = Raise JSONDecodeError).
Proof.
  intros Hrun. split.
  - revert w r w' Hrun. apply for_each_within.
    intros [dkey value] w r w' Hin. unfold bind at 1, lift.
    destruct (json_loads value) as [parsed|]; simpl.
    + intros Hvals. eapply republish_values_within; [| | |exact Hvals]; simpl.
      * intros val _. by exists dkey, value.
      * done.
      * intros _ _ _. by exists dkey, value.
    + intros [= <- <-]. apply run_within_refl.
  - destruct r as [[]|e]; [by left|right]. f_equal.
    revert w e w' Hrun. apply for_each_raises.
    intros [dkey value] w e w'. unfold bind at 1, lift.
    destruct (json_loads value) as [parsed|]; simpl.
    + intros Hvals.
      eapply (republish_values_within (λ _, True)) in Hvals as [_ ?]; done.
    + by intros [= <- <-].
Qed.

(** C8, where the code departs from it: the sweep ends at the first old
    entry whose value is no JSON document.  The refresh raises
    [JSONDecodeError] there; [_call_remote_persist] was called for entries
    before that one only, so the entries behind it are not republished,
    JSON documents or not; and the store calls that did go out carry the
    digest of the stored digest, not the digest under which [set] sent the
    value and under which the entry is stored. *)
Theorem refresh_abandons_later_entries w w1 good dkey value rest :
  refresh_table_crawl w = (Ok (), w1) →
  Storage.iteritemsOlderThan (monotonic (env w1)) (storage (self w1)) 3600
    = good ++ (dkey, value) :: rest →
  (∀ d s, (d, s) ∈ good → is_Some (json_loads s)) →
  json_loads value = None →
  ∃ w',
    _refresh_table w = (Raise JSONDecodeError, w') ∧
    (∀ k s, (k, s) ∈ republish_calls (new_events w1 w') →
       ∃ d s0, (d, s0) ∈ good ∧ k = KBytes d) ∧
    (∀ peer d s ok, EvCallStore peer d s ok ∈ new_events w1 w' →
       ∃ d0 s0, (d0, s0) ∈ good ∧ d = digest (KBytes d0)).
Proof.
  intros Hcrawl Hitems Hgood Hbad. unfold _refresh_table.
  rewrite (bind_Ok _ _ _ _ _ Hcrawl). unfold refresh_table_republish.
  erewrite bind_Ok by (unfold storage_iteritemsOlderThan, bind, env_read, self_read, ret;
                       simpl; reflexivity).
  rewrite Hitems, for_each_app.
  destruct (republish_items_run good w1 Hgood) as (w' & Hrun & _).
  rewrite (bind_Ok _ _ _ _ _ Hrun). cbn [for_each].
  exists w'. split; [|split].
  - apply bind_Raise, bind_Raise. unfold lift. by rewrite Hbad.
  - apply republish_items_within in Hrun as [(_ & _ & evs & Ht & Hevs) _].
    rewrite (new_events_app _ _ _ Ht). intros k s Hin.
    apply list_elem_of_omap in Hin as (ev & Hev & Hcall).
    rewrite Forall_forall in Hevs. specialize (Hevs ev Hev).
    destruct ev; try done. injection Hcall as -> ->. exact Hevs.
  - apply republish_items_within in Hrun as [(_ & _ & evs & Ht & Hevs) _].
    rewrite (new_events_app _ _ _ Ht). intros peer d s ok Hin.
    rewrite Forall_forall in Hevs. exact (Hevs _ Hin).
Qed.

(** X10: whether it completes or raises, the refresh leaves the server
    object alone, so no stored entry is written or stamped again, and it
    leaves the files alone; it queries no oracle, pings nobody and runs no
    value crawl; and the only exception it can raise is the
    [JSONDecodeError] of a stored value. *)
Theorem refresh_never_writes_the_store w r w' :
  _refresh_table w = (r, w') →
  self w' = self w ∧ files w' = files w ∧
  (r = Ok () ∨ r = Raise JSONDecodeError) ∧
  Forall (λ ev, match ev with
                | EvNodeCrawl _ _ | EvRemotePersist _ _ | EvCallStore _ _ _ _ => True
                | EvValueCrawl _ _ _ | EvGetById _ _ | EvPing _ => False
                end) (new_events w w').
Proof.
  unfold _refresh_table.
  destruct (refresh_table_crawl_run w) as (w1 & Hcrawl & Hs1 & Hf1 & evs1 & Ht1 & _).
  rewrite (bind_Ok _ _ _ _ _ Hcrawl). unfold refresh_table_republish.
  erewrite bind_Ok by (unfold storage_iteritemsOlderThan, bind, env_read, self_read, ret;
                       simpl; reflexivity).
  intros Hloop. apply republish_items_within in Hloop as [(Hs & Hf & evs & Ht & Hevs) Hr].
  split_and!; [congruence..|done|].
  rewrite Ht1, <- app_assoc in Ht. rewrite (new_events_app _ _ _ Ht).
  apply Forall_app. split.
  - revert Hcrawl Ht1. clear. intros Hcrawl Ht1.
    destruct (refresh_table_crawl_events w) as (w0 & Hrun & _ & _ & Hev).
    rewrite Hcrawl in Hrun. inversion Hrun; subst w0.
    rewrite Ht1 in Hev. apply app_inv_head in Hev as ->.
    apply Forall_fmap, Forall_forall. done.
  - eapply Forall_impl; [exact Hevs|]. intros [] ?; done.
Qed.


(** X11: every store call that a refresh sends out, completed or not, is for
    an entry older than an hour, and the key it carries is the digest of
    that entry's key: [_call_remote_persist] digests the stored digest once
    more. *)
Theorem refresh_store_calls_carry_digest_of_stored_digest w w1 r w' :
  refresh_table_crawl w = (Ok (), w1) →
  _refresh_table w = (r, w') →
  let items := Storage.iteritemsOlderThan (monotonic (env w1)) (storage (self w1)) 3600 in
  ∀ peer d s ok,
    EvCallStore peer d s ok ∈ new_events w w' →
    ∃ dkey value, (dkey, value) ∈ items ∧ d = digest (KBytes dkey).
Proof.
  intros Hcrawl. unfold _refresh_table.
  rewrite (bind_Ok _ _ _ _ _ Hcrawl). unfold refresh_table_republish.
  erewrite bind_Ok by (unfold storage_iteritemsOlderThan, bind, env_read, self_read, ret;
                       simpl; reflexivity).
  intros Hloop. simpl. intros peer d s ok Hin.
  apply republish_items_within in Hloop as [(_ & _ & evs & Ht & Hevs) _].
  destruct (refresh_table_crawl_events w) as (w0 & Hrun & _ & _ & Ht1).
  rewrite Hcrawl in Hrun. inversion Hrun; subst w0.
  rewrite Ht1, <- app_assoc in Ht. rewrite (new_events_app _ _ _ Ht) in Hin.
  apply elem_of_app in Hin as [Hin|Hin].
  - apply list_elem_of_fmap in Hin as (? & ? & ?). done.
  - rewrite Forall_forall in Hevs. apply (Hevs _ Hin).
Qed.

(** X12: the republish loop goes through the old entries in store order and
    stops at the first one whose value is no JSON document: the entries
    before it are republished as usual, the refresh raises
    [JSONDecodeError], and neither that entry nor any later one is
    republished. *)
Theorem refresh_stops_at_first_entry_that_is_not_json w w1 good dkey value rest :
  refresh_table_crawl w = (Ok (), w1) →
  Storage.iteritemsOlderThan (monotonic (env w1)) (storage (self w1)) 3600
    = good ++ (dkey, value) :: rest →
  (∀ d s, (d, s) ∈ good → is_Some (json_loads s)) →
  json_loads value = None →
  ∃ w',
    _refresh_table w = (Raise JSONDecodeError, w') ∧
    republish_calls (new_events w1 w') =
      good ≫= λ '(d, s),
        match json_loads s with
        | Some (JArray vals) => (λ val, (KBytes d, json_dumps val)) <$> vals
        | _ => [(KBytes d, s)]
        end.
Proof.
  intros Hcrawl Hitems Hgood Hbad. unfold _refresh_table.
  rewrite (bind_Ok _ _ _ _ _ Hcrawl). unfold refresh_table_republish.
  erewrite bind_Ok by (unfold storage_iteritemsOlderThan, bind, env_read, self_read, ret;
                       simpl; reflexivity).
  rewrite Hitems, for_each_app.
  destruct (republish_items_run good w1 Hgood) as (w' & Hrun & _ & _ & evs & Ht & Hc).
  rewrite (bind_Ok _ _ _ _ _ Hrun). cbn [for_each].
  exists w'. split.
  - apply bind_Raise, bind_Raise. unfold lift. by rewrite Hbad.
  - by rewrite (new_events_app _ _ _ Ht).
Qed.

(** ** bootstrap *)

Lemma protocol_ping_run addr id w :
  protocol_ping addr id w =
    let r := ping (env w) addr id in
    (Ok r.1, mkWorld (self w) r.2 (files w) (trace w ++ [EvPing addr])).
Proof.
  unfold protocol_ping, bind, log, env_step. simpl. by destruct (ping _ _ _).
Qed.

Lemma gather_bootstrap_node addrs w :
  let pinged := ping_all (env w) (node_id (node (self w))) addrs in
  gather (bootstrap_node <$> addrs) w =
    (Ok (zip_with (λ (addr : option string * option Z) (answer : bool * bytes),
                     if answer.1 then Some (mkNode answer.2 addr.1 addr.2) else None)
           addrs pinged.1),
     mkWorld (self w) pinged.2 (files w) (trace w ++ (EvPing <$> addrs))).
Proof.
  revert w. induction addrs as [|addr addrs IH]; intros w; simpl.
  - unfold ret. rewrite app_nil_r. by destruct w.
  - unfold bootstrap_node at 1.
    erewrite bind_Ok; last first.
    { erewrite bind_Ok by (unfold self_read; reflexivity).
      erewrite bind_Ok by apply protocol_ping_run. reflexivity. }
    simpl. destruct (ping (env w) addr _) as [answer e1] eqn:Hping. simpl.
    erewrite bind_Ok by apply IH. simpl.
    destruct (ping_all e1 _ addrs) as [answers e2]. simpl. unfold ret.
    by rewrite <- app_assoc.
Qed.

(** X13: [bootstrap] never raises and leaves the server object and the files
    alone.  It pings every address once, in order, with the node's own
    identifier, and then runs one node crawl toward its own node, started
    from the peers that answered, each with the identifier it answered and
    the address that was pinged; peers that did not answer are left out, and
    without any answer (or any address) the crawl starts from no peer. *)
Theorem bootstrap_pings_then_crawls addrs w :
  let me := node (self w) in
  let pinged := ping_all (env w) (node_id me) addrs in
  let nodes := responders addrs pinged.1 in
  let found := find_nodes pinged.2 me nodes (ksize (self w)) (alpha (self w)) in
  ∃ w',
    bootstrap addrs w = (Ok found.1, w') ∧
    self w' = self w ∧ files w' = files w ∧ env w' = found.2 ∧
    new_events w w' = (EvPing <$> addrs) ++ [EvNodeCrawl me nodes] ∧
    length pinged.1 = length addrs.
Proof.
  simpl. unfold bootstrap.
  erewrite bind_Ok by apply gather_bootstrap_node.
  erewrite bind_Ok by (unfold self_read; reflexivity).
  rewrite NodeSpiderCrawl_find_run. simpl.
  eexists. split_and!; [done..| |].
  - apply new_events_app. simpl. by rewrite <- app_assoc.
  - generalize (env w). induction addrs as [|addr addrs IH]; intros e; simpl; [done|].
    destruct (ping e addr _) as [answer e1].
    specialize (IH e1). destruct (ping_all e1 _ addrs). simpl in *. by rewrite IH.
Qed.

(** ** State snapshots, continued *)



End ServerMore.


(** * The hash of the oracle *)

Section DtlHash.

Context `{!Utils}.

Lemma unhex_hex_byte b :
  ∃ c1 c2, hex_byte b = String c1 (String c2 EmptyString) ∧ unhex_pair c1 c2 = Some b.
Proof. destruct b; eexists _, _; split; reflexivity. Qed.

Lemma hex_cons b d : hex (b :: d) = hex_byte b +:+ hex d.
Proof. reflexivity. Qed.

Lemma hex_inj d1 d2 : hex d1 = hex d2 → d1 = d2.
Proof.
  revert d2. induction d1 as [|b1 d1 IH]; intros [|b2 d2] Heq; try done.
  rewrite !hex_cons in Heq.
  destruct (unhex_hex_byte b1) as (a1 & a2 & Ha & Hb1).
  destruct (unhex_hex_byte b2) as (c1 & c2 & Hc & Hb2).
  rewrite Ha, Hc in Heq. simpl in Heq. injection Heq as -> -> Heq.
  f_equal; [congruence|by apply IH].
Qed.

(** X21: the hash under which [_get_dtl_record] asks the oracle separates
    key and signature.  Two hashes are equal only if [digest256] gave the
    same digest for both inputs; and for key digests of the same length, as
    all SHA-1 digests are, the inputs [dkey.hex() + sign] are equal only if
    both the key digests and the signatures are. *)
Theorem dtl_hash_separates_key_and_signature (d1 d2 : bytes) (v1 v2 : Value) :
  (hex (digest256 (hex d1 +:+ sign (authorization v1)))
     = hex (digest256 (hex d2 +:+ sign (authorization v2))) →
   digest256 (hex d1 +:+ sign (authorization v1))
     = digest256 (hex d2 +:+ sign (authorization v2))) ∧
  (length d1 = length d2 →
   hex d1 +:+ sign (authorization v1) = hex d2 +:+ sign (authorization v2) →
   d1 = d2 ∧ sign (authorization v1) = sign (authorization v2)).
Proof.
  split; [apply hex_inj|].
  generalize (sign (authorization v1)) (sign (authorization v2)). intros s1 s2.
  revert d2. induction d1 as [|b1 d1 IH]; intros [|b2 d2] Hlen Heq; try done.
  rewrite !hex_cons in Heq.
  destruct (unhex_hex_byte b1) as (a1 & a2 & Ha & Hb1).
  destruct (unhex_hex_byte b2) as (c1 & c2 & Hc & Hb2).
  rewrite Ha, Hc in Heq. simpl in Heq. injection Heq as -> -> Heq.
  destruct (IH d2) as [-> ->]; [by injection Hlen|done|].
  split; [|done]. f_equal. congruence.
Qed.

End DtlHash.

(** * Test utilities: mknode *)

Section MkNode.

Context {Env : Type} `{!Environment Env} `{!Hashlib}.

Lemma Z_of_byte_of_Z z : Z_of_byte (byte_of_Z z) = (z mod 256)%Z.
Proof.
  unfold Z_of_byte, byte_of_Z.
  pose proof (Z.mod_pos_bound z 256 eq_refl) as Hb.
  destruct (Byte.of_N (Z.to_N (z mod 256))) as [b|] eqn:Hof; simpl.
  - apply Byte.to_of_N in Hof. rewrite Hof. lia.
  - apply Byte.of_N_None_iff in Hof. lia.
Qed.

Lemma two_complement_32 (n : Z) :
  (-2147483648 <= n < 2147483648)%Z →
  let u := ((((n `div` 16777216) `mod` 256 * 256 + (n `div` 65536) `mod` 256) * 256
             + (n `div` 256) `mod` 256) * 256 + n `mod` 256)%Z in
  (if (u <? 2147483648)%Z then u else u - 4294967296)%Z = n.
Proof.
  intros Hrange u. subst u.
  assert (n `div` 65536 = (n `div` 256) `div` 256)%Z as E2
    by (rewrite Z.div_div by lia; reflexivity).
  assert (n `div` 16777216 = (n `div` 65536) `div` 256)%Z as E3
    by (rewrite E2, !Z.div_div by lia; reflexivity).
  pose proof (Z.div_mod n 256 ltac:(lia)) as D1.
  pose proof (Z.mod_pos_bound n 256 ltac:(lia)) as B1.
  pose proof (Z.div_mod (n `div` 256) 256 ltac:(lia)) as D2.
  pose proof (Z.mod_pos_bound (n `div` 256) 256 ltac:(lia)) as B2.
  pose proof (Z.div_mod (n `div` 65536) 256 ltac:(lia)) as D3.
  pose proof (Z.mod_pos_bound (n `div` 65536) 256 ltac:(lia)) as B3.
  pose proof (Z.div_mod (n `div` 16777216) 256 ltac:(lia)) as D4.
  pose proof (Z.mod_pos_bound (n `div` 16777216) 256 ltac:(lia)) as B4.
  rewrite <- E2 in D2. rewrite <- E3 in D3.
  remember ((n `div` 16777216) `mod` 256)%Z as r3 eqn:Hr3.
  remember ((n `div` 65536) `mod` 256)%Z as r2 eqn:Hr2.
  remember ((n `div` 256) `mod` 256)%Z as r1 eqn:Hr1.
  remember (n `mod` 256)%Z as r0 eqn:Hr0.
  remember ((n `div` 16777216) `div` 256)%Z as q4 eqn:Hq4.
  remember (n `div` 16777216)%Z as q3 eqn:Hq3.
  remember (n `div` 65536)%Z as q2 eqn:Hq2.
  remember (n `div` 256)%Z as q1 eqn:Hq1.
  clear Hr3 Hr2 Hr1 Hr0 Hq4 Hq3 Hq2 Hq1 E2 E3.
  destruct (Z.ltb_spec ((((r3 * 256 + r2) * 256 + r1) * 256 + r0)) 2147483648); lia.
Qed.

Lemma unpack_pack_l n packed : pack_l n = Some packed → unpack_l packed = Some n.
Proof.
  unfold pack_l. destruct (decide _) as [Hrange|]; [|done]. intros [= <-].
  unfold unpack_l. rewrite !Z_of_byte_of_Z, !Z.shiftr_div_pow2 by lia. f_equal.
  change (2 ^ 24)%Z with 16777216%Z. change (2 ^ 16)%Z with 65536%Z.
  change (2 ^ 8)%Z with 256%Z.
  by apply two_complement_32.
Qed.

(** X16: [mknode] with an [intid] that fits 32 signed bits ignores the
    [node_id] argument and draws no random number; the node's identifier is
    four bytes that read back, as a big-endian signed integer, as [intid], so
    different [intid]s give different identifiers.  With an [intid] outside
    that range [pack] raises. *)
Theorem mknode_intid id ip port n e :
  ((-2147483648 <= n < 2147483648)%Z →
     ∃ packed,
       mknode id ip port (Some n) e = (Some (mkNode packed ip port), e) ∧
       length packed = 4 ∧ unpack_l packed = Some n ∧
       ∀ id' m, mknode id' ip port (Some m) e = (Some (mkNode packed ip port), e) → m = n) ∧
  (¬ (-2147483648 <= n < 2147483648)%Z → mknode id ip port (Some n) e = (None, e)).
Proof.
  split; intros Hrange.
  - destruct (pack_l n) as [packed|] eqn:Hpack.
    2: { unfold pack_l in Hpack. by rewrite decide_True in Hpack. }
    exists packed.
    assert (length packed = 4) as Hlen.
    { unfold pack_l in Hpack. rewrite decide_True in Hpack by done. by injection Hpack as <-. }
    assert (∀ id0 m p, pack_l m = Some p →
              mknode id0 ip port (Some m) e = (Some (mkNode p ip port), e)) as Hmk.
    { intros id0 m p Hp. unfold mknode. rewrite Hp. simpl.
      unfold pack_l in Hp. destruct (decide _); [|done]. by injection Hp as <-. }
    split_and!; [by apply Hmk|done|by apply unpack_pack_l|].
    intros id' m Hm. destruct (pack_l m) as [p|] eqn:Hp.
    + rewrite (Hmk _ _ _ Hp) in Hm. injection Hm as ->.
      apply unpack_pack_l in Hp, Hpack. congruence.
    + unfold mknode in Hm. rewrite Hp in Hm. done.
  - unfold mknode, pack_l. by rewrite decide_False.
Qed.

End MkNode.


(** * The server's timers *)

Section TimerFacts.

Context {Env : Type} `{!Environment Env} `{!Utils} `{!Domain} `{!Json}.

Implicit Types (p : Process Env).

(** [saveStateRegularly] arms its timer after [saveState] has returned; when
    [saveState] raises, the exception leaves [saveStateRegularly] before
    [call_later], and the server holds the handle it held. *)
Lemma saveStateRegularly_run fname frequency p :
  (∃ w',
     saveState fname (proc_world p) = (Ok (), w') ∧
     saveStateRegularly fname frequency p =
       (Ok (),
        mkProcess w' (transport p) (refresh_loop p) (Some (length (timers p)))
          (timers p ++ [mkHandle (monotonic (env w') + frequency)
                          (CbSaveStateRegularly fname frequency) Armed])
          (pending_refreshes p))) ∨
  (∃ e w',
     saveState fname (proc_world p) = (Raise e, w') ∧
     saveStateRegularly fname frequency p =
       (Raise e,
        mkProcess w' (transport p) (refresh_loop p) (save_state_loop p)
          (timers p) (pending_refreshes p))).
Proof.
  unfold saveStateRegularly.
  destruct (saveState fname (proc_world p)) as [[[]|e] w'].
  - left. by exists w'.
  - right. by exists e, w'.
Qed.

Lemma tidy_refresh_table p :
  (∀ i h, timers p !! i = Some h → state_of h = Armed →
     match callback_of h with
     | CbRefreshTable => False
     | CbSaveStateRegularly _ _ => save_state_loop p = Some i
     end) →
  tidy (refresh_table p).
Proof.
  intros Hp i h Hi Harmed. unfold refresh_table in *. simpl in *.
  apply lookup_app_Some in Hi as [Hi|[Hlen Hi]].
  - specialize (Hp i h Hi Harmed). by destruct (callback_of h).
  - destruct (i - length (timers p)) as [|k] eqn:Hk; [|done].
    injection Hi as <-. simpl. f_equal. lia.
Qed.

Lemma tidy_saveStateRegularly fname frequency p :
  (∀ i h, timers p !! i = Some h → state_of h = Armed →
     match callback_of h with
     | CbRefreshTable => refresh_loop p = Some i
     | CbSaveStateRegularly _ _ => False
     end) →
  tidy (saveStateRegularly fname frequency p).2.
Proof.
  intros Hp i h Hi Harmed.
  destruct (saveStateRegularly_run fname frequency p)
    as [(w' & _ & Hrun)|(e & w' & _ & Hrun)]; rewrite Hrun in *; simpl in *.
  - apply lookup_app_Some in Hi as [Hi|[Hlen Hi]].
    + specialize (Hp i h Hi Harmed). by destruct (callback_of h).
    + destruct (i - length (timers p)) as [|k] eqn:Hk; [|done].
      injection Hi as <-. simpl. f_equal. lia.
  - specialize (Hp i h Hi Harmed). by destruct (callback_of h).
Qed.

Lemma tidy_run_callback p i h :
  tidy p → timers p !! i = Some h → state_of h = Armed →
  tidy (run_callback (callback_of h) (mark_fired i p)).
Proof.
  intros Htidy Hi Harmed.
  assert (∀ j h', timers (mark_fired i p) !! j = Some h' → state_of h' = Armed →
            j ≠ i ∧ timers p !! j = Some h') as Hrest.
  { intros j h' Hj Ha. simpl in Hj. destruct (decide (i = j)) as [->|Hne].
    - rewrite list_lookup_alter_eq, Hi in Hj. injection Hj as <-. done.
    - by rewrite list_lookup_alter_ne in Hj. }
  pose proof (Htidy i h Hi Harmed) as Hheld.
  destruct (callback_of h) as [|fname frequency]; simpl.
  - apply tidy_refresh_table. intros j h' Hj Ha.
    destruct (Hrest j h' Hj Ha) as [Hne Hj']. specialize (Htidy j h' Hj' Ha).
    simpl. destruct (callback_of h'); [congruence|done].
  - apply tidy_saveStateRegularly. intros j h' Hj Ha.
    destruct (Hrest j h' Hj Ha) as [Hne Hj']. specialize (Htidy j h' Hj' Ha).
    simpl. destruct (callback_of h'); [done|congruence].
Qed.

(** What holds of every process of a server used as intended. *)
Lemma started_invariant p : started p → tidy p ∧ transport p = Some true.
Proof.
  induction 1 as [w p Hlisten|p fname frequency _ [Htidy Ht] Hnone|p p' _ [Htidy Ht] Hstep].
  - injection Hlisten as <-. split; [|done].
    apply tidy_refresh_table. intros i h Hi. simpl in Hi. by rewrite lookup_nil in Hi.
  - split.
    + apply tidy_saveStateRegularly. intros i h Hi Ha. specialize (Htidy i h Hi Ha).
      destruct (callback_of h); [done|congruence].
    + by destruct (saveStateRegularly_run fname frequency p)
        as [(w' & _ & ->)|(e & w' & _ & ->)].
  - destruct Hstep as [p i h Hi Ha|p n Hn].
    + split; [by apply tidy_run_callback|].
      destruct (callback_of h) as [|fname frequency]; simpl; [done|].
      by destruct (saveStateRegularly_run fname frequency (mark_fired i p))
        as [(w' & _ & ->)|(e & w' & _ & ->)].
    + split; [|done]. intros i h Hi Ha. apply (Htidy i h Hi Ha).
Qed.

(** X17: in a server used as intended ([listen] once, [saveStateRegularly]
    at most once from outside the loop, then the loop running), however many
    times the timers have fired, at most one refresh timer and at most one
    snapshot timer are armed, and they are the handles the server holds in
    [refresh_loop] and [save_state_loop]. *)
Theorem started_keeps_one_timer_per_job p :
  started p →
  tidy p ∧
  ∀ i j hi hj,
    timers p !! i = Some hi → timers p !! j = Some hj →
    state_of hi = Armed → state_of hj = Armed →
    (callback_of hi = CbRefreshTable ↔ callback_of hj = CbRefreshTable) →
    i = j.
Proof.
  intros [Htidy _]%started_invariant. split; [done|].
  intros i j hi hj Hi Hj Hai Haj Hkind.
  pose proof (Htidy i hi Hi Hai) as Hpi. pose proof (Htidy j hj Hj Haj) as Hpj.
  destruct (callback_of hi), (callback_of hj); try congruence.
  - by destruct Hkind as [Hk _]; specialize (Hk eq_refl).
  - by destruct Hkind as [_ Hk]; specialize (Hk eq_refl).
Qed.

Lemma cancel_lookup i p j h :
  timers (cancel i p) !! j = Some h → state_of h = Armed →
  j ≠ i ∧ timers p !! j = Some h.
Proof.
  simpl. intros Hj Ha. destruct (decide (i = j)) as [->|Hne].
  - rewrite list_lookup_alter_eq in Hj.
    destruct (timers p !! j) as [h0|]; [|done].
    simpl in Hj. injection Hj as <-.
    destruct (state_of h0) eqn:Hs; simpl in Ha; congruence.
  - by rewrite list_lookup_alter_ne in Hj.
Qed.

Lemma stop_lookup p j h :
  timers (stop p) !! j = Some h → state_of h = Armed →
  timers p !! j = Some h ∧ refresh_loop p ≠ Some j ∧ save_state_loop p ≠ Some j.
Proof.
  unfold stop. intros Hj Ha.
  set (p1 := match transport p with
             | Some _ => mkProcess (proc_world p) (Some false) (refresh_loop p)
                           (save_state_loop p) (timers p) (pending_refreshes p)
             | None => p
             end) in *.
  assert (timers p1 = timers p ∧ refresh_loop p1 = refresh_loop p ∧
          save_state_loop p1 = save_state_loop p) as (Ht1 & Hr1 & Hs1)
    by (subst p1; by destruct (transport p)).
  rewrite <- Ht1, <- Hr1, <- Hs1. clearbody p1.
  destruct (refresh_loop p1) as [r|] eqn:Hr, (save_state_loop p1) as [s|] eqn:Hs;
    simpl in Hj; rewrite ?Hs in Hj.
  - apply cancel_lookup in Hj as [Hns Hj]; [|done].
    apply cancel_lookup in Hj as [Hnr Hj]; [|done]. split_and!; congruence.
  - apply cancel_lookup in Hj as [Hnr Hj]; [|done]. split_and!; congruence.
  - apply cancel_lookup in Hj as [Hns Hj]; [|done]. split_and!; congruence.
  - done.
Qed.

Lemma stop_transport p : is_Some (transport p) → transport (stop p) = Some false.
Proof.
  intros [b Hb]. unfold stop. rewrite Hb. simpl.
  destruct (refresh_loop p), (save_state_loop p); done.
Qed.

(** X18: [stop] ends the periodic work of a server used as intended: the
    transport is closed and no timer is armed any more, and this stays so
    whatever the loop still runs, which can only be refresh coroutines that
    were scheduled before. *)
Theorem stop_disarms_every_timer p p' :
  started p →
  rtc loop_step (stop p) p' →
  transport p' = Some false ∧
  timers p' = timers (stop p) ∧
  Forall (λ h, state_of h ≠ Armed) (timers p') ∧
  pending_refreshes p' ≤ pending_refreshes p.
Proof.
  intros [Htidy Ht]%started_invariant Hsteps.
  assert (Forall (λ h, state_of h ≠ Armed) (timers (stop p))) as Hnone.
  { apply Forall_forall. intros h Hh Ha.
    apply list_elem_of_lookup in Hh as [j Hj].
    destruct (stop_lookup p j h Hj Ha) as (Hj' & Hr & Hs).
    specialize (Htidy j h Hj' Ha). by destruct (callback_of h). }
  assert (pending_refreshes (stop p) = pending_refreshes p) as Hpend.
  { unfold stop. destruct (transport p), (refresh_loop p), (save_state_loop p); done. }
  assert (transport (stop p) = Some false) as Hclosed by (apply stop_transport; by rewrite Ht).
  rewrite <- Hpend. clear Htidy Ht Hpend.
  induction Hsteps as [q|q q' q'' Hstep _ IH]; [done|].
  destruct Hstep as [q i h Hi Ha|q n Hn].
  - rewrite Forall_forall in Hnone. exfalso. eapply Hnone; [|done].
    apply list_elem_of_lookup. by exists i.
  - simpl in IH. destruct IH as (? & ? & ? & ?); [done..|]. split_and!; [done..|lia].
Qed.

(** X19: [refresh_table] keeps one handle only.  When it is called twice
    without the timer firing in between, the handle of the first call is
    lost; [stop] cancels the second one, and the first stays armed. *)
Theorem refresh_table_twice_leaves_a_timer_armed p :
  (∀ i, save_state_loop p = Some i → i < length (timers p)) →
  ∃ h,
    timers (stop (refresh_table (refresh_table p))) !! length (timers p) = Some h ∧
    state_of h = Armed ∧ callback_of h = CbRefreshTable.
Proof.
  intros Hheld. eexists (mkHandle _ CbRefreshTable Armed). split; [|done].
  unfold stop. unfold refresh_table at 1 2 3 4. simpl.
  destruct (transport p); simpl.
  all: destruct (save_state_loop p) as [s|] eqn:Hs; simpl.
  all: try (rewrite list_lookup_alter_ne by (specialize (Hheld s eq_refl); lia)).
  all: rewrite list_lookup_alter_ne by (rewrite length_app; simpl; lia).
  all: rewrite lookup_app_l by (rewrite length_app; simpl; lia).
  all: by rewrite list_lookup_middle.
Qed.

Lemma cancel_settled i p :
  (∀ h, timers p !! i = Some h → state_of h ≠ Armed) → cancel i p = p.
Proof.
  intros Hset. unfold cancel. destruct p as [w t r s ts n]. simpl in *. f_equal.
  apply list_eq. intros j. destruct (decide (i = j)) as [->|Hne].
  - rewrite list_lookup_alter_eq. destruct (ts !! j) as [h|] eqn:Hj; [|done].
    simpl. specialize (Hset h eq_refl). by destruct (state_of h).
  - by rewrite list_lookup_alter_ne.
Qed.

(** X20: [stop] can be called again, and on a server that was never started:
    a second [stop] changes nothing, and [stop] on a server that holds no
    transport and no handle changes nothing at all. *)
Theorem stop_is_idempotent p :
  stop (stop p) = stop p ∧
  (transport p = None → refresh_loop p = None → save_state_loop p = None → stop p = p).
Proof.
  split.
  - assert (∀ j h, timers (stop p) !! j = Some h → state_of h = Armed →
              refresh_loop p ≠ Some j ∧ save_state_loop p ≠ Some j) as Hsettled
      by (intros j h Hj Ha; by destruct (stop_lookup p j h Hj Ha) as (_ & ? & ?)).
    assert (refresh_loop (stop p) = refresh_loop p ∧
            save_state_loop (stop p) = save_state_loop p ∧
            (transport (stop p) = None ∨ transport (stop p) = Some false)) as (Hr & Hs & Ht).
    { unfold stop.
      destruct (transport p) eqn:Htp, (refresh_loop p) eqn:Hrp,
        (save_state_loop p) eqn:Hsp;
        simpl; rewrite ?Hsp; simpl; rewrite ?Htp; split_and!; auto. }
    generalize dependent (stop p). intros q Hsettled Hr Hs Ht.
    unfold stop.
    assert (match transport q with
            | Some _ => mkProcess (proc_world q) (Some false) (refresh_loop q)
                          (save_state_loop q) (timers q) (pending_refreshes q)
            | None => q
            end = q) as ->.
    { destruct q as [w t r s ts n]. simpl in *. by destruct Ht as [->| ->]. }
    assert (match refresh_loop q with Some h => cancel h q | None => q end = q) as ->.
    { destruct (refresh_loop q) as [r|] eqn:Hrq; [|done]. apply cancel_settled.
      intros h Hh Ha. destruct (Hsettled r h Hh Ha) as [Hne _]. congruence. }
    destruct (save_state_loop q) as [s|] eqn:Hsq; [|done]. apply cancel_settled.
    intros h Hh Ha. destruct (Hsettled s h Hh Ha) as [_ Hne]. congruence.
  - intros Ht Hr Hs. unfold stop. rewrite Ht, Hr, Hs. done.
Qed.

(** A loop step arms refresh timers only, unless a snapshot timer fires. *)
Lemma loop_step_arms_no_snapshot p p' :
  Forall (λ h, state_of h = Armed → callback_of h = CbRefreshTable) (timers p) →
  loop_step p p' →
  Forall (λ h, state_of h = Armed → callback_of h = CbRefreshTable) (timers p').
Proof.
  intros Hp Hstep. destruct Hstep as [p i h Hi Ha|p n Hn]; [|done].
  rewrite Forall_forall in Hp.
  rewrite (Hp h) by (by apply list_elem_of_lookup_2 in Hi). simpl.
  apply Forall_app. split; [|by repeat constructor].
  apply Forall_forall. intros h' Hh' Ha'.
  apply list_elem_of_lookup in Hh' as [j Hj].
  destruct (decide (i = j)) as [->|Hne].
  - rewrite list_lookup_alter_eq, Hi in Hj. injection Hj as <-. done.
  - rewrite list_lookup_alter_ne in Hj by done.
    apply Hp; [|done]. by apply list_elem_of_lookup_2 in Hj.
Qed.

(** X22: a snapshot that cannot be written ends the periodic snapshots.
    When the snapshot timer fires and [saveState] raises, the exception
    leaves [saveStateRegularly] before [call_later]: the timer that fired is
    the last snapshot timer, and however long the loop runs afterwards, every
    armed timer is a refresh timer. *)
Theorem failed_snapshot_ends_the_snapshots p i h fname frequency e w' p' :
  tidy p →
  timers p !! i = Some h → state_of h = Armed →
  callback_of h = CbSaveStateRegularly fname frequency →
  saveState fname (proc_world p) = (Raise e, w') →
  rtc loop_step (run_callback (callback_of h) (mark_fired i p)) p' →
  Forall (λ h', state_of h' = Armed → callback_of h' = CbRefreshTable) (timers p').
Proof.
  intros Htidy Hi Ha Hcb Hsave Hsteps.
  assert (Forall (λ h', state_of h' = Armed → callback_of h' = CbRefreshTable)
            (timers (run_callback (callback_of h) (mark_fired i p)))) as Hnow.
  { rewrite Hcb. simpl. unfold saveStateRegularly. simpl. rewrite Hsave. simpl.
    apply Forall_forall. intros h' Hh' Ha'.
    apply list_elem_of_lookup in Hh' as [j Hj].
    destruct (decide (i = j)) as [->|Hne].
    - rewrite list_lookup_alter_eq, Hi in Hj. injection Hj as <-. done.
    - rewrite list_lookup_alter_ne in Hj by done.
      pose proof (Htidy i h Hi Ha) as Hheld. rewrite Hcb in Hheld.
      pose proof (Htidy j h' Hj Ha') as Hheld'.
      destruct (callback_of h'); [done|congruence]. }
  clear -Hnow Hsteps.
  induction Hsteps as [q|q q' q'' Hstep _ IH]; [done|].
  apply IH. by eapply loop_step_arms_no_snapshot.
Qed.

End TimerFacts.

(** * The server on explicit inputs *)

Section Witnesses.
Import Sample Runs.

#[local] Existing Instances environment utils domain json_module.

(** The write of [alice] is refused when the ledger drops the record between
    the two checks. *)
Lemma set_refused_without_authorization_witness :
  ∃ w', set key alice revoked_mid_write = (Raise UnauthorizedOperationException, w') ∧
        storage (self w') = storage (self revoked_mid_write) ∧
        last (trace w') =
          Some (EvGetById (hex (digest256 (hex dkey +:+ sign (authorization alice)))) None).
Proof.
  edestruct (set_refused_without_authorization key alice revoked_mid_write)
    as [_ Hafter]; [reflexivity..|].
  apply (Hafter (Single alice)); [by eexists|reflexivity|reflexivity].
Defined.

(** With a peer known, [get] resolves the local copy.  When that is the list
    [[v1]], [v2] is appended; when it is [alice], written by another key,
    [v2] is refused and the store stays as it was. *)
Lemma persist_locally_conflict_rule_witness :
  (∃ w', _persist_locally key v2 (authorized true [(dkey, (50%Z, "[v1]"))]) = (Ok (), w') ∧
         storage (self w') =
           Storage.set 100 (Storage.mk 604800 [(dkey, (50%Z, "[v1]"))]) dkey "[v1,v2]") ∧
  (∃ w', _persist_locally key v2 (authorized true [(dkey, (50%Z, "alice"))])
           = (Raise UnauthorizedOperationException, w') ∧
         storage (self w') = Storage.mk 604800 [(dkey, (50%Z, "alice"))]).
Proof.
  split.
  - edestruct (persist_locally_conflict_rule key v2 (authorized true [(dkey, (50%Z, "[v1]"))]))
      as [Hcontrolled _]; [reflexivity|by eexists|].
    edestruct (Hcontrolled "[v1]" [v1]) as [Hstores _]; [reflexivity..|].
    apply Hstores. by eexists.
  - edestruct (persist_locally_conflict_rule key v2 (authorized true [(dkey, (50%Z, "alice"))]))
      as (_ & Hsingle & _); [reflexivity|by eexists|].
    edestruct (Hsingle "alice" alice) as [_ Hrefuses]; [reflexivity..|].
    apply Hrefuses. reflexivity.
Defined.

(** C2, as stated, fails: the local store holds the controlled value [[v1]]
    under the key's digest and no peer is known.  [get] resolves no value, so
    [v2] is not appended: the entry is overwritten with [v2] alone and [v1]
    is gone. *)
Lemma persist_locally_overwrites_a_stored_controlled_value :
  Storage.get (monotonic (env alone_with_list)) (storage (self alone_with_list)) dkey
    = Some "[v1]" ∧
  create_from_string dkey "[v1]" = Ok (Controlled [v1]) ∧
  value_str (Controlled (add_value [v1] v2)) = "[v1,v2]" ∧
  ∃ w', _persist_locally key v2 alone_with_list = (Ok (), w') ∧
        Storage.get (monotonic (env w')) (storage (self w')) dkey = Some "v2".
Proof. split_and!; [reflexivity..|]. eexists. split; reflexivity. Qed.

(** One peer is known after the local write.  When it accepts the store,
    [set] answers [True]; when it refuses, [False]; the call went out to it
    either way. *)
Lemma set_true_iff_some_peer_accepted_witness :
  (∃ w', set key alice (authorized true []) = (Ok true, w') ∧
         last (trace w') = Some (EvCallStore (peer x01) dkey "alice" true)) ∧
  (∃ w', set key alice (authorized false []) = (Ok false, w') ∧
         last (trace w') = Some (EvCallStore (peer x01) dkey "alice" false)).
Proof.
  split.
  - edestruct (set_true_iff_some_peer_accepted key alice (authorized true []))
      as (b & w' & Hset & Hb & _ & Hsent);
      [reflexivity|reflexivity|by eexists|reflexivity|by eexists|].
    exists w'. split.
    + rewrite Hset. f_equal. f_equal. apply Hb.
      split; [discriminate|]. exists 0, (peer x01). split; vm_compute; reflexivity.
    + destruct Hsent as [_ ->]; [discriminate|]. vm_compute. reflexivity.
  - edestruct (set_true_iff_some_peer_accepted key alice (authorized false []))
      as (b & w' & Hset & Hb & _ & Hsent);
      [reflexivity|reflexivity|by eexists|reflexivity|by eexists|].
    exists w'. split.
    + rewrite Hset. f_equal. f_equal. destruct b; [|done].
      destruct Hb as [Hb _]. destruct (Hb eq_refl) as [_ (i & p & _ & Hi)].
      vm_compute in Hi. destruct i as [|i]; [discriminate Hi|]. destruct i; discriminate Hi.
    + destruct Hsent as [_ ->]; [discriminate|]. vm_compute. reflexivity.
Defined.

Lemma get_without_neighbors_witness :
  get key alone = (Ok (of_params (digest key) None), alone).
Proof. refine (get_without_neighbors key alone _). reflexivity. Defined.

(** Every store call fails, [set] answers [False], and the local store has the
    value. *)
Lemma set_keeps_local_write_when_stores_fail_witness :
  ∃ w', set key alice (authorized false []) = (Ok false, w') ∧
        Storage.get 100 (storage (self w')) dkey = Some "alice".
Proof.
  edestruct (set_keeps_local_write_when_stores_fail key alice (authorized false []))
    as (b & w' & Hset & _ & Hget & Hfalse);
    [reflexivity|reflexivity|by eexists|reflexivity|by eexists|].
  exists w'. split.
  - rewrite Hset. f_equal. f_equal. apply Hfalse.
    intros p d s ok. vm_compute in Hset. injection Hset as _ <-.
    vm_compute. intros Hin.
    repeat (apply elem_of_cons in Hin as [Hin|Hin]; [by inversion Hin|]).
    by apply elem_of_nil in Hin.
  - apply Hget. vm_compute. discriminate.
Defined.

Lemma get_seeds_crawl_with_local_copy_witness :
  ∃ responses w',
    get key (authorized true [(dkey, (50%Z, "alice"))]) =
      (Ok (of_params dkey
             (select_most_common_response dkey (of_params dkey (Some "alice") :: responses))),
       w') ∧
    new_events (authorized true [(dkey, (50%Z, "alice"))]) w' =
      [EvValueCrawl (mkNode dkey None None) [peer x01] [of_params dkey (Some "alice")]] ∧
    responses = [].
Proof.
  refine (get_seeds_crawl_with_local_copy key (authorized true [(dkey, (50%Z, "alice"))])
            "alice" _ _ _); [discriminate|reflexivity|reflexivity].
Defined.

(** C7, as stated, fails: the local store holds [alice] under the key's digest
    and no peer is known; [get] answers without data and the world is
    untouched, so no crawl was given the local copy. *)
Lemma get_drops_local_copy_without_neighbors :
  Storage.get (monotonic (env alone)) (storage (self alone)) (digest key) = Some "alice" ∧
  get key alone = (Ok (of_params (digest key) None), alone) ∧
  new_events alone (get key alone).2 = [].
Proof. split_and!; reflexivity. Qed.

Lemma refresh_republishes_old_entries_witness :
  ∃ w', _refresh_table (old_entries "[1, 2]" "{}") = (Ok (), w') ∧
        republish_calls (new_events (old_entries "[1, 2]" "{}") w') =
          [(KBytes [x01], "1"); (KBytes [x01], "2"); (KBytes [x02], "{}")].
Proof.
  refine (refresh_republishes_old_entries (old_entries "[1, 2]" "{}")
            (old_entries "[1, 2]" "{}") _ _); [reflexivity|].
  intros d value Hin. vm_compute in Hin.
  repeat (apply elem_of_cons in Hin as [Hin|Hin]; [inversion Hin; by eexists|]).
  by apply elem_of_nil in Hin.
Defined.

(** Both entries are older than an hour and the first holds [alice], which is
    no JSON document: the refresh raises and neither entry is republished,
    the second one, a JSON object, included. *)
Lemma refresh_stops_at_a_value_that_is_not_json :
  Storage.iteritemsOlderThan (monotonic (env (old_entries "alice" "{}")))
    (storage (self (old_entries "alice" "{}"))) 3600 = [([x01], "alice"); ([x02], "{}")] ∧
  json_loads "alice" = None ∧
  _refresh_table (old_entries "alice" "{}") = (Raise JSONDecodeError, old_entries "alice" "{}") ∧
  republish_calls (trace (_refresh_table (old_entries "alice" "{}")).2) = [].
Proof. split_and!; reflexivity. Qed.

(** Three entries are older than an hour and a peer is known.  The first
    entry goes out, under the digest of its digest; the second is no JSON
    document, the refresh raises, and the third, a JSON list, is never
    republished. *)
Lemma refresh_abandons_later_entries_witness :
  ∃ w', _refresh_table three_old_entries = (Raise JSONDecodeError, w') ∧
        new_events three_old_entries w' =
          [EvRemotePersist (KBytes [x01]) "{}";
           EvNodeCrawl (mkNode [x00; x01] None None) [peer x01];
           EvCallStore (peer x01) [x00; x01] "{}" true] ∧
        is_Some (json_loads "[1, 2]").
Proof.
  edestruct (refresh_abandons_later_entries three_old_entries three_old_entries
               [([x01], "{}")] [x02] "alice" [([x03], "[1, 2]")])
    as (w' & Hrun & _); [reflexivity|reflexivity| |reflexivity|].
  { intros d s Hin. apply elem_of_cons in Hin as [Heq|Hin].
    - injection Heq as -> ->. by eexists.
    - by apply elem_of_nil in Hin. }
  exists w'. split; [exact Hrun|].
  vm_compute in Hrun. injection Hrun as <-. split; [vm_compute; reflexivity|by eexists].
Defined.

(** A snapshot with one neighbour is saved and loaded again: the loaded
    server has the saved parameters, and the trace is still empty. *)
Lemma loadState_never_bootstraps_witness :
  ∃ w1,
    saveState "state.pickle" (authorized true []) = (Ok (), w1) ∧
    files w1 !! "state.pickle" =
      Some (mkSnapshot 20 3 [x2a] [(Some "10.0.0.1", Some 8468%Z)]) ∧
    loadState "state.pickle" w1 =
      (Ok (mkServer 20 3 Storage.empty (mkNode [x2a] None None)), w1) ∧
    trace w1 = [].
Proof.
  exists (saveState "state.pickle" (authorized true [])).2.
  split; [reflexivity|]. split; [by vm_compute|]. split; [|reflexivity].
  refine (loadState_never_bootstraps "state.pickle" _
            (mkSnapshot 20 3 [x2a] [(Some "10.0.0.1", Some 8468%Z)]) _ _);
    [by vm_compute|discriminate].
Defined.

(** A value without signature is refused before anything else happens. *)
Lemma set_raise_leaves_storage_witness :
  storage (self (set key (mkValue "alice" "overwrite" (mkAuthorization "" "A")) alone).2)
    = storage (self alone).
Proof.
  refine (set_raise_leaves_storage key (mkValue "alice" "overwrite" (mkAuthorization "" "A"))
            alone UnauthorizedOperationException _ _).
  reflexivity.
Defined.

End Witnesses.

Section MoreWitnesses.
Import Sample Runs MoreRuns.

#[local] Existing Instances environment utils domain json_module.

Lemma get_unseeded_without_local_copy_witness :
  ∃ w', get key (authorized true []) =
          (Ok (of_params dkey (select_most_common_response dkey [])), w') ∧
        new_events (authorized true []) w' =
          [EvValueCrawl (mkNode dkey None None) [peer x01] []].
Proof.
  refine (get_unseeded_without_local_copy key (authorized true []) _ _);
    [discriminate|reflexivity].
Defined.

Lemma set_returns_iff_every_check_passes_witness :
  ∃ b w', set key alice (authorized true []) = (Ok b, w').
Proof.
  edestruct (set_returns_iff_every_check_passes key alice (authorized true []))
    as [_ Hreturns]; [reflexivity|].
  apply Hreturns. split_and!; [reflexivity|by eexists..].
Defined.

Lemma set_raises_before_propagating_witness :
  ∃ w', set key alice revoked_mid_write = (Raise UnauthorizedOperationException, w') ∧
        Forall (λ ev, match ev with
                      | EvValueCrawl _ _ _ | EvGetById _ _ => True
                      | _ => False
                      end)
          (new_events revoked_mid_write w').
Proof.
  eexists. split; [vm_compute; reflexivity|].
  edestruct (set_raises_before_propagating key alice revoked_mid_write)
    as [_ Hquiet]; [reflexivity|vm_compute; reflexivity|exact Hquiet].
Defined.

Lemma set_events_concern_key_and_value_witness :
  ∃ w', set key alice (authorized true []) = (Ok true, w') ∧
        Forall (set_event key alice) (new_events (authorized true []) w') ∧
        length (filter (λ ev, is_oracle_query ev = true)
                  (new_events (authorized true []) w')) ≤ 2.
Proof.
  eexists. split; [vm_compute; reflexivity|].
  refine (set_events_concern_key_and_value key alice (authorized true []) (Ok true) _ _).
  vm_compute; reflexivity.
Defined.

(** The lone node holds [alice] under the key; after [set] of [v2] it holds
    [v2] alone, and [get] still answers without data. *)
Lemma lone_node_cannot_read_back_witness :
  ∃ w', set key v2 alone = (Ok false, w') ∧
        storage (self w') =
          Storage.set 100 (Storage.mk 604800 [(dkey, (50%Z, "alice"))]) dkey "v2" ∧
        get key w' = (Ok (of_params dkey None), w').
Proof.
  refine (lone_node_cannot_read_back key v2 alone _ _ _ _ _);
    [reflexivity|reflexivity|by eexists|by eexists|reflexivity].
Defined.

Lemma set_then_get_seeds_stored_value_witness :
  ∃ w' w'', set key alice (authorized true []) = (Ok true, w') ∧
            get key w' = (Ok (of_params dkey (Some "alice")), w'').
Proof.
  edestruct (set_then_get_seeds_stored_value key alice (authorized true []))
    as (b & w' & Hset & Hget);
    [reflexivity|reflexivity|by eexists|reflexivity|by eexists|reflexivity|].
  vm_compute in Hset. injection Hset as <- <-.
  edestruct Hget as (w'' & Hget' & _); [vm_compute; discriminate..|].
  eexists _, w''. split; [vm_compute; reflexivity|]. rewrite Hget'. vm_compute; reflexivity.
Defined.

Lemma refresh_never_writes_the_store_witness :
  ∃ w', _refresh_table (old_entries_with_peer "[1, 2]" "alice")
          = (Raise JSONDecodeError, w') ∧
        self w' = self (old_entries_with_peer "[1, 2]" "alice").
Proof.
  eexists. split; [vm_compute; reflexivity|].
  edestruct (refresh_never_writes_the_store (old_entries_with_peer "[1, 2]" "alice"))
    as (Hself & _ & _ & _); [vm_compute; reflexivity|exact Hself].
Defined.

Lemma refresh_store_calls_carry_digest_of_stored_digest_witness :
  ∃ w1 r w',
    refresh_table_crawl (old_entries_with_peer "[1, 2]" "{}") = (Ok (), w1) ∧
    _refresh_table (old_entries_with_peer "[1, 2]" "{}") = (r, w') ∧
    EvCallStore (peer x01) [x00; x01] "1" false
      ∈ new_events (old_entries_with_peer "[1, 2]" "{}") w' ∧
    ∃ d value,
      (d, value) ∈ Storage.iteritemsOlderThan (monotonic (env w1)) (storage (self w1)) 3600 ∧
      [x00; x01] = digest (KBytes d).
Proof.
  eexists _, _, _.
  split; [vm_compute; reflexivity|]. split; [vm_compute; reflexivity|].
  assert (EvCallStore (peer x01) [x00; x01] "1" false
            ∈ new_events (old_entries_with_peer "[1, 2]" "{}")
                (_refresh_table (old_entries_with_peer "[1, 2]" "{}")).2) as Hin.
  { vm_compute. do 3 apply list_elem_of_further. apply list_elem_of_here. }
  split; [exact Hin|].
  refine (refresh_store_calls_carry_digest_of_stored_digest
            (old_entries_with_peer "[1, 2]" "{}") _ _ _ _ _ (peer x01) [x00; x01] "1" false
            Hin);
    vm_compute; reflexivity.
Defined.

Lemma refresh_stops_at_first_entry_that_is_not_json_witness :
  ∃ w', _refresh_table (old_entries "{}" "alice") = (Raise JSONDecodeError, w') ∧
        republish_calls (new_events (old_entries "{}" "alice") w') = [(KBytes [x01], "{}")].
Proof.
  refine (refresh_stops_at_first_entry_that_is_not_json (old_entries "{}" "alice")
            (old_entries "{}" "alice") [([x01], "{}")] [x02] "alice" [] _ _ _ _);
    [reflexivity|reflexivity| |reflexivity].
  intros d s Hin. apply elem_of_cons in Hin as [Heq|Hin].
  - injection Heq as -> ->. by eexists.
  - by apply elem_of_nil in Hin.
Defined.


(** The empty path cannot be opened: [saveState] raises and nothing is
    written; without a neighbour the path is not even opened. *)
Example saveState_on_a_path_that_cannot_be_opened :
  saveState "" (authorized true []) = (Raise FileNotFoundError, authorized true []) ∧
  saveState "" alone = (Ok (), alone).
Proof. split; reflexivity. Qed.

(** The process after [listen] and one firing of the refresh timer. *)
Lemma started_keeps_one_timer_per_job_witness :
  tidy (run_callback CbRefreshTable (mark_fired 0 listening)) ∧
  refresh_loop (run_callback CbRefreshTable (mark_fired 0 listening)) = Some 1.
Proof.
  split; [|reflexivity].
  refine (proj1 (started_keeps_one_timer_per_job _ _)).
  apply (started_step listening).
  - by apply (started_listen (authorized true [])).
  - exact (step_timer listening 0 _ eq_refl eq_refl).
Defined.

Lemma stop_disarms_every_timer_witness :
  transport (stop listening) = Some false ∧
  timers (stop listening) = timers (stop listening) ∧
  Forall (λ h, state_of h ≠ Armed) (timers (stop listening)) ∧
  pending_refreshes (stop listening) ≤ pending_refreshes listening.
Proof.
  refine (stop_disarms_every_timer listening (stop listening) _ _).
  - by apply (started_listen (authorized true [])).
  - apply rtc_refl.
Defined.

Lemma refresh_table_twice_leaves_a_timer_armed_witness :
  ∃ h,
    timers (stop (refresh_table (refresh_table (fresh (authorized true []))))) !! 0 = Some h ∧
    state_of h = Armed ∧ callback_of h = CbRefreshTable.
Proof.
  refine (refresh_table_twice_leaves_a_timer_armed (fresh (authorized true [])) _).
  intros i Hi. discriminate Hi.
Defined.

(** The snapshot timer fires, the empty path cannot be opened, and the
    refresh timer is the only one left armed. *)
Lemma failed_snapshot_ends_the_snapshots_witness :
  saveState "" (proc_world snapshot_due) = (Raise FileNotFoundError, proc_world snapshot_due) ∧
  Forall (λ h', state_of h' = Armed → callback_of h' = CbRefreshTable)
    (timers (run_callback (CbSaveStateRegularly "" 600) (mark_fired 1 snapshot_due))).
Proof.
  split; [reflexivity|].
  refine (failed_snapshot_ends_the_snapshots snapshot_due 1
            (mkHandle 700 (CbSaveStateRegularly "" 600) Armed) "" 600
            FileNotFoundError (proc_world snapshot_due) _ _ _ _ _ _ (rtc_refl _ _));
    [|reflexivity..].
  intros j h' Hj Ha. destruct j as [|[|j]]; simpl in Hj.
  - injection Hj as <-. reflexivity.
  - injection Hj as <-. reflexivity.
  - discriminate Hj.
Defined.

End MoreWitnesses.
